(** * karpenter-core: NodePool API, admission validation, webhook health
      probe, pod metrics controller and the disruption engine.

    A shallow embedding of the Go sources.  Go maps are [gmap]s (a nil map
    that is only read behaves as the empty map; where the code tests a map
    against nil the map is an [option]), pointers that may be nil are
    [option]s, [int32]/[time.Duration] values are [Z], and an
    [*apis.FieldError] is the list of the errors it aggregates (nil is the
    empty list). *)

From Stdlib Require Import ZArith Ascii Sorting.Sorted DecimalString.
From stdpp Require Import gmap strings list fin_maps sorting.

Open Scope string_scope.
Open Scope list_scope.
Open Scope Z_scope.

(** ** resource.Quantity

    A quantity is represented by its exact numeric value in its finest
    unit; [Cmp] is the three-way comparison of [resource.Quantity.Cmp]. *)

Abbreviation Quantity := Z (only parsing).

Definition Cmp (q y : Quantity) : Z :=
  match q ?= y with
  | Lt => -1
  | Eq => 0
  | Gt => 1
  end.

(** [v1.ResourceList] is [map[ResourceName]resource.Quantity]. *)
Abbreviation ResourceList := (gmap string Z) (only parsing).

Module v1beta1.

(** *** Limits *)

(** [type Limits v1.ResourceList]; [ExceededBy] tests the receiver against
    nil, so the receiver is an optional map. *)
Abbreviation Limits := (option (gmap string Z)) (only parsing).

(** The error built by [fmt.Errorf("%s resource usage of %v exceeds limit
    of %v", resourceName, usage.AsDec(), limit.AsDec())], kept as its three
    arguments. *)
Record LimitError := ExceedsLimit {
  le_resourceName : string;
  le_usage : Z;
  le_limit : Z
}.

(** The body of the [for resourceName, usage := range resources] loop, run
    over the entries in the order the iteration visits them. *)
Fixpoint ExceededBy_range (l : gmap string Z) (entries : list (string * Z))
  : option LimitError :=
  match entries with
  | [] => None
  | (resourceName, usage) :: rest =>
      match l !! resourceName with
      | Some limit =>
          if Cmp usage limit >? 0
          then Some (ExceedsLimit resourceName usage limit)
          else ExceededBy_range l rest
      | None => ExceededBy_range l rest
      end
  end.

(** [func (l Limits) ExceededBy(resources v1.ResourceList) error], for a
    given iteration order of [resources] (Go leaves the order of a map
    range unspecified). *)
Definition ExceededBy_in_order (l : Limits) (entries : list (string * Z))
  : option LimitError :=
  match l with
  | None => None
  | Some lm => ExceededBy_range lm entries
  end.

Definition ExceededBy (l : Limits) (resources : gmap string Z)
  : option LimitError :=
  ExceededBy_in_order l (map_to_list resources).

(** *** API types *)

(** [NillableDuration]: a nil [Duration] is the literal "Never". *)
Record NillableDuration := { Duration : option Z }.

Definition ConsolidationPolicyWhenEmpty : string := "WhenEmpty".
Definition ConsolidationPolicyWhenUnderutilized : string := "WhenUnderutilized".

Record Disruption := {
  ConsolidateAfter : option NillableDuration;
  ConsolidationPolicy : string;
  ExpireAfter : NillableDuration
}.

(** The template's own [ObjectMeta]: labels and annotations only. *)
Record ObjectMeta := {
  Labels : gmap string string;
  Annotations : gmap string string
}.

Record NodeSelectorRequirement := {
  Key : string;
  Operator : string;
  Values : list string
}.

Record Taint := {
  taint_Key : string;
  taint_Value : string;
  taint_Effect : string
}.

#[global] Instance Taint_eq_dec : EqDecision Taint.
Proof. solve_decision. Defined.

(** The fields of [NodeClaimSpec] that the template code reads. *)
Record NodeClaimSpec := {
  Taints : list Taint;
  Requirements : list NodeSelectorRequirement;
  Resources_Requests : gmap string Z
}.

Record NodeClaimTemplate := {
  template_ObjectMeta : ObjectMeta;
  template_Spec : NodeClaimSpec
}.

Record NodePoolSpec := {
  Template : NodeClaimTemplate;
  spec_Disruption : Disruption;
  spec_Limits : option (gmap string Z);
  Weight : option Z
}.

Record NodePoolStatus := { status_Resources : gmap string Z }.

(** [metav1.ObjectMeta] of the NodePool object. *)
Record metav1_ObjectMeta := {
  Name : string;
  meta_Labels : gmap string string;
  meta_Annotations : gmap string string
}.

Record NodePool := {
  pool_ObjectMeta : metav1_ObjectMeta;
  Spec : NodePoolSpec;
  Status : NodePoolStatus
}.

(** *** Hash *)

(** [fmt.Sprint] of a [uint64]: its decimal numeral. *)
Definition fmt_Sprint (n : N) : string :=
  NilEmpty.string_of_uint (N.to_uint n).

Section Hash.
(** [hashstructure.Hash(v, FormatV2, {SlicesAsSets, IgnoreZeroValue,
    ZeroNil})] of the external hashstructure library, at the template
    type: a [uint64] computed from the value it is given ([lo.Must]
    unwraps it). *)
Variable hashstructure_Hash : NodeClaimTemplate -> N.

Definition Hash (in_ : NodePool) : string :=
  fmt_Sprint (hashstructure_Hash (Template (Spec in_))).
End Hash.

(** *** OrderByWeight *)

(** [ptr.Int32Value]: the pointee, or 0 for nil. *)
Definition Int32Value (p : option Z) : Z :=
  match p with
  | Some v => v
  | None => 0
  end.

Section sort_Slice.
Context {A : Type} (less : A -> A -> bool).

(** The inner loop of the insertion sort in Go's [sort] package,
    [for j := i; j > a && less(j, j-1); j-- { swap(j, j-1) }]: the
    element [x] moves left past every neighbour it is [less] than.  The
    sorted prefix is held reversed, its last element first. *)
Fixpoint insert_left (x : A) (rev_prefix : list A) : list A :=
  match rev_prefix with
  | [] => [x]
  | y :: rest =>
      if less x y then y :: insert_left x rest else x :: y :: rest
  end.

(** [sort.Slice(x, less)].  Go documents it as a sort that is not
    guaranteed to be stable; its implementation runs the insertion sort
    [for i := a + 1; i < b; i++ { ... }] on slices of at most 12
    elements, which is the algorithm modelled here. *)
Definition sort_Slice (x : list A) : list A :=
  rev (fold_left (fun rev_prefix e => insert_left e rev_prefix) x []).
End sort_Slice.

(** The [less] closure of [OrderByWeight]. *)
Definition weight_less (a b : NodePool) : bool :=
  Int32Value (Weight (Spec a)) >? Int32Value (Weight (Spec b)).

(** [func (pl *NodePoolList) OrderByWeight()], on [pl.Items]. *)
Definition OrderByWeight (Items : list NodePool) : list NodePool :=
  sort_Slice weight_less Items.

(** The weight that orders a NodePool. *)
Definition weight (p : NodePool) : Z := Int32Value (Weight (Spec p)).

(** Two orders on NodePools: weights descend; and, as the specification
    has it, weights descend and equal weights are in ascending order of
    object name. *)
Definition weight_desc (a b : NodePool) : Prop := weight b <= weight a.

Definition weight_desc_name_asc (a b : NodePool) : Prop :=
  weight b < weight a
  ∨ (weight a = weight b
     ∧ String.leb (Name (pool_ObjectMeta a)) (Name (pool_ObjectMeta b)) = true).

(** *** Field errors (knative.dev/pkg/apis) *)

(** One error of a [*apis.FieldError], named by the constructor call that
    makes it; [Via] records a [ViaField] prefix. *)
Inductive FieldErrorLeaf :=
| ErrInvalidValue (value fieldPath : string)
| ErrGeneric (diagnostic : string)
| ErrInvalidKeyName (key fieldPath details : string)
| ErrInvalidArrayValue (value field : string) (index : nat)
| ErrDisallowedFields (fieldPath : string)
| Via (prefix : string) (e : FieldErrorLeaf).

(** A [*apis.FieldError] is the list of the errors it holds; nil is the
    empty list. *)
Abbreviation FieldError := (list FieldErrorLeaf) (only parsing).

(** [errs.Also(e1, ..., en)]: the receiver's errors followed by those of
    the arguments; nil when there are none. *)
Definition Also (fe : FieldError) (errs : list FieldError) : FieldError :=
  fe ++ concat errs.

Definition ViaField (prefix : string) (fe : FieldError) : FieldError :=
  map (Via prefix) fe.

(** *** Admission validation *)

(** [func (in *Disruption) validate() (errs *apis.FieldError)] *)
Definition Disruption_validate (in_ : Disruption) : FieldError :=
  let errs : FieldError := [] in
  if match Duration (ExpireAfter in_) with
     | Some d => d <? 0
     | None => false
     end
  then Also errs [[ErrInvalidValue "cannot be negative" "expirationTTL"]]
  else if match ConsolidateAfter in_ with
          | Some ca => match Duration ca with
                       | Some d => d <? 0
                       | None => false
                       end
          | None => false
          end
  then Also errs [[ErrInvalidValue "cannot be negative" "consolidationTTL"]]
  else if match ConsolidateAfter in_ with
          | Some ca => match Duration ca with
                       | Some _ =>
                           bool_decide (ConsolidationPolicy in_
                                        = ConsolidationPolicyWhenUnderutilized)
                       | None => false
                       end
          | None => false
          end
  then Also errs [[ErrGeneric
    "consolidateAfter cannot be combined with consolidationPolicy=WhenUnderutilized"]]
  else if match ConsolidateAfter in_ with
          | Some _ => false
          | None => bool_decide (ConsolidationPolicy in_
                                 = ConsolidationPolicyWhenEmpty)
          end
  then Also errs [[ErrGeneric
    "consolidateAfter must be specified with consolidationPolicy=WhenEmpty"]]
  else errs.

Section Validation.
(** The label key constant [NodePoolLabelKey] and the validators the
    template code calls: [validation.IsQualifiedName] and
    [validation.IsValidLabelValue] of k8s.io/apimachinery, the package's
    [IsRestrictedLabel] (its error message, if any) and
    [NodeClaimSpec.validate]. *)
Variable NodePoolLabelKey : string.
Variable IsQualifiedName : string -> list string.
Variable IsValidLabelValue : string -> list string.
Variable IsRestrictedLabel : string -> option string.
Variable NodeClaimSpec_validate : NodeClaimSpec -> FieldError.

(** The body of [for key, value := range in.Labels], for one entry. *)
Definition validateLabel (errs : FieldError) (kv : string * string)
  : FieldError :=
  let '(key, value) := kv in
  let errs :=
    if bool_decide (key = NodePoolLabelKey)
    then Also errs [[ErrInvalidKeyName key "labels" "restricted"]]
    else errs in
  let errs :=
    fold_left (fun errs err =>
                 Also errs [[ErrInvalidKeyName key "labels" err]])
              (IsQualifiedName key) errs in
  let errs :=
    fold_left (fun errs err =>
                 Also errs [[ErrInvalidValue (value +:+ ", " +:+ err)
                               ("labels[" +:+ key +:+ "]")]])
              (IsValidLabelValue value) errs in
  match IsRestrictedLabel key with
  | Some err => Also errs [[ErrInvalidKeyName key "labels" err]]
  | None => errs
  end.

(** [func (in *NodeClaimTemplate) validateLabels()].  The labels are
    visited in [map_to_list] order; another order permutes the errors. *)
Definition validateLabels (in_ : NodeClaimTemplate) : FieldError :=
  fold_left validateLabel
            (map_to_list (Labels (template_ObjectMeta in_))) [].

(** The loop of [validateRequirementsNodePoolKeyDoesNotExist], from
    index [i]. *)
Fixpoint validateRequirements_from (i : nat) (errs : FieldError)
         (reqs : list NodeSelectorRequirement) : FieldError :=
  match reqs with
  | [] => errs
  | requirement :: rest =>
      let errs :=
        if bool_decide (Key requirement = NodePoolLabelKey)
        then Also errs [[ErrInvalidArrayValue
                           (Key requirement +:+ " is restricted")
                           "requirements" i]]
        else errs in
      validateRequirements_from (S i) errs rest
  end.

(** [func (in *NodeClaimTemplate)
     validateRequirementsNodePoolKeyDoesNotExist()] *)
Definition validateRequirementsNodePoolKeyDoesNotExist
           (in_ : NodeClaimTemplate) : FieldError :=
  validateRequirements_from 0 [] (Requirements (template_Spec in_)).

(** [func (in *NodeClaimTemplate) validate()] *)
Definition NodeClaimTemplate_validate (in_ : NodeClaimTemplate)
  : FieldError :=
  let errs : FieldError := [] in
  let errs :=
    if bool_decide (0 < size (Resources_Requests (template_Spec in_)))%nat
    then Also errs [[ErrDisallowedFields "resources.requests"]]
    else errs in
  Also errs
    [ ViaField "metadata" (validateLabels in_);
      ViaField "spec.requirements"
               (validateRequirementsNodePoolKeyDoesNotExist in_);
      ViaField "spec" (NodeClaimSpec_validate (template_Spec in_)) ].
End Validation.

End v1beta1.

(** ** k8s.io/apimachinery/pkg/util/validation

    The two label validators that [validateLabels] calls, following the
    regular expressions of the library.  Each returned string is the
    leading sentence of the library's message (the library appends
    examples and the expression itself). *)
Module validation.

Definition in_range (lo hi : nat) (c : ascii) : bool :=
  let n := nat_of_ascii c in (Nat.leb lo n && Nat.leb n hi)%bool.

Definition is_lower_alnum (c : ascii) : bool :=
  (in_range 97 122 c || in_range 48 57 c)%bool.

Definition is_alnum (c : ascii) : bool :=
  (in_range 65 90 c || is_lower_alnum c)%bool.

Definition is_char (x c : ascii) : bool := bool_decide (c = x).

(** [qnameExtCharFmt = "[-A-Za-z0-9_.]"] *)
Definition is_qnameExtChar (c : ascii) : bool :=
  (is_alnum c || is_char "-"%char c || is_char "_"%char c
   || is_char "."%char c)%bool.

(** [qualifiedNameFmt], anchored: one alphanumeric character, or an
    alphanumeric character, any run of [qnameExtCharFmt] characters and an
    alphanumeric character. *)
Definition qualifiedNameRegexp (s : list ascii) : bool :=
  match s with
  | [] => false
  | c :: rest =>
      (is_alnum c && forallb is_qnameExtChar rest && is_alnum (List.last rest c))%bool
  end.

(** [^[a-z0-9]([-a-z0-9]*[a-z0-9])?$] *)
Definition dns1123Label (s : list ascii) : bool :=
  match s with
  | [] => false
  | c :: rest =>
      (is_lower_alnum c
       && forallb (fun c => is_lower_alnum c || is_char "-"%char c) rest
       && is_lower_alnum (List.last rest c))%bool
  end.

(** [strings.Split] on a one-character separator. *)
Fixpoint split_on (sep : ascii) (s : list ascii) : list (list ascii) :=
  match s with
  | [] => [[]]
  | c :: rest =>
      if bool_decide (c = sep) then [] :: split_on sep rest
      else match split_on sep rest with
           | [] => [[c]]
           | part :: parts => (c :: part) :: parts
           end
  end.

Definition dns1123SubdomainRegexp (s : list ascii) : bool :=
  forallb dns1123Label (split_on "."%char s).

Definition qualifiedNameMaxLength : nat := 63.
Definition LabelValueMaxLength : nat := 63.
Definition DNS1123SubdomainMaxLength : nat := 253.

Definition qualifiedNameErrMsg : string :=
  "must consist of alphanumeric characters, '-', '_' or '.', and must start and end with an alphanumeric character".
Definition labelValueErrMsg : string :=
  "a valid label must be an empty string or consist of alphanumeric characters, '-', '_' or '.', and must start and end with an alphanumeric character".
Definition dns1123SubdomainErrorMsg : string :=
  "a lowercase RFC 1123 subdomain must consist of lower case alphanumeric characters, '-' or '.', and must start and end with an alphanumeric character".

Definition IsDNS1123Subdomain (value : list ascii) : list string :=
  (if Nat.ltb DNS1123SubdomainMaxLength (length value)
   then ["must be no more than 253 characters"] else [])
  ++ (if dns1123SubdomainRegexp value then [] else [dns1123SubdomainErrorMsg]).

Definition IsQualifiedName (value : string) : list string :=
  match split_on "/"%char (String.list_ascii_of_string value) with
  | [name] =>
      (if Nat.eqb (length name) 0 then ["name part must be non-empty"]
       else if Nat.ltb qualifiedNameMaxLength (length name)
            then ["name part must be no more than 63 characters"] else [])
      ++ (if qualifiedNameRegexp name then []
          else ["name part " +:+ qualifiedNameErrMsg])
  | [prefix; name] =>
      (if Nat.eqb (length prefix) 0 then ["prefix part must be non-empty"]
       else map (fun msg => "prefix part " +:+ msg) (IsDNS1123Subdomain prefix))
      ++ (if Nat.eqb (length name) 0 then ["name part must be non-empty"]
          else if Nat.ltb qualifiedNameMaxLength (length name)
               then ["name part must be no more than 63 characters"] else [])
      ++ (if qualifiedNameRegexp name then []
          else ["name part " +:+ qualifiedNameErrMsg])
  | _ =>
      ["a qualified name " +:+ qualifiedNameErrMsg
       +:+ " with an optional DNS subdomain prefix and '/'"]
  end.

(** [labelValueFmt = "(" + qualifiedNameFmt + ")?"] *)
Definition IsValidLabelValue (value : string) : list string :=
  let v := String.list_ascii_of_string value in
  (if Nat.ltb LabelValueMaxLength (length v)
   then ["must be no more than 63 characters"] else [])
  ++ (if (Nat.eqb (length v) 0 || qualifiedNameRegexp v)%bool then []
      else [labelValueErrMsg]).

End validation.

(** ** pkg/webhooks *)
Module webhooks.

Record Response := { StatusCode : Z }.

(** The two results of [http.Get]: a connection-level error, or a response. *)
Inductive GetResult :=
| GetError (err : string)
| GetResponse (res : Response).

(** [%d] of [fmt.Sprintf]. *)
Definition fmt_d (z : Z) : string := NilZero.string_of_int (Z.to_int z).

Section HealthProbe.
(** The network, as [http.Get] sees it, and the request type of the
    checker (which it does not read). *)
Variable http_Get : string -> GetResult.
Variable Request : Type.

(** [func HealthProbe(ctx context.Context) healthz.Checker], with the
    [WebhookPort] option of the context; the result is the checker.
    Reading and closing the body leaves the status code as it is. *)
Definition HealthProbe (WebhookPort : Z) : Request -> option string :=
  fun req =>
    match http_Get ("http://localhost:" +:+ fmt_d WebhookPort) with
    | GetError err => Some err
    | GetResponse res =>
        if ((StatusCode res >=? 500) || (StatusCode res =? 404))%bool
        then Some ("webhook probe failed with status code "
                   +:+ fmt_d (StatusCode res))
        else None
    end.
End HealthProbe.

End webhooks.

(** ** pkg/controllers/metrics/pod *)
Module pod.

Record OwnerReference := {
  APIVersion : string;
  Kind : string;
  owner_Name : string
}.

Record PodCondition := {
  cond_Type : string;
  LastTransitionTime : Z
}.

(** The fields of [v1.Pod] the controller reads; times are instants on one
    clock, in nanoseconds. *)
Record Pod := {
  Name : string;
  Namespace : string;
  OwnerReferences : list OwnerReference;
  NodeName : string;
  Phase : string;
  Conditions : list PodCondition;
  CreationTimestamp : Z
}.

Record Node := { node_Labels : gmap string string }.

Record NamespacedName := {
  nn_Namespace : string;
  nn_Name : string
}.

(** [types.NamespacedName.String] *)
Definition NamespacedName_String (n : NamespacedName) : string :=
  nn_Namespace n +:+ "/" +:+ nn_Name n.

Definition ObjectKeyFromObject (p : Pod) : NamespacedName :=
  {| nn_Namespace := Namespace p; nn_Name := Name p |}.

(** The errors of the client: the not-found status error and the rest. *)
Inductive error :=
| NotFoundError (msg : string)
| OtherError (msg : string).

(** [errors.IsNotFound] *)
Definition IsNotFound (err : error) : bool :=
  match err with
  | NotFoundError _ => true
  | OtherError _ => false
  end.

(** [client.IgnoreNotFound] *)
Definition IgnoreNotFound (err : option error) : option error :=
  match err with
  | Some e => if IsNotFound e then None else Some e
  | None => None
  end.

(** [reconcile.Result] *)
Record Result := {
  Requeue : bool;
  RequeueAfter : Z
}.

Definition Result_zero : Result := {| Requeue := false; RequeueAfter := 0 |}.

(** [metrics.StoreMetric]; every metric of this controller is on
    [podGaugeVec]. *)
Record StoreMetric := {
  Value : Z;
  Labels : gmap string string
}.

(** The controller, with the process-wide [podStartupTimeSummary] (the
    durations of which it has observed the [Seconds()], newest first). *)
Record Controller := {
  metricStore : gmap string (list StoreMetric);
  pendingPods : gset string;
  podStartupTimeSummary : list Z
}.

(** Modelled from the spec: [metrics.Store] (pkg/metrics, not among the
    sources) is the store of the state gauges the controller publishes,
    one entry per key: [Update] sets the entry of a key and [Delete]
    removes it. *)
Definition Store_Update (key : string) (ms : list StoreMetric)
           (s : gmap string (list StoreMetric)) : gmap string (list StoreMetric) :=
  <[key := ms]> s.

Definition Store_Delete (key : string) (s : gmap string (list StoreMetric))
  : gmap string (list StoreMetric) :=
  delete key s.

Definition podName : string := "name".
Definition podNameSpace : string := "namespace".
Definition ownerSelfLink : string := "owner".
Definition podHostName : string := "node".
Definition podProvisioner : string := "provisioner".
Definition podNodePool : string := "nodepool".
Definition podHostZone : string := "zone".
Definition podHostArchitecture : string := "arch".
Definition podHostCapacityType : string := "capacity_type".
Definition podHostInstanceType : string := "instance_type".
Definition podPhase : string := "phase".
Definition phasePending : string := "Pending".
Definition PodReady : string := "Ready".

(** Well-known label keys of k8s.io/api/core/v1 and of the karpenter APIs. *)
Definition LabelTopologyZone : string := "topology.kubernetes.io/zone".
Definition LabelArchStable : string := "kubernetes.io/arch".
Definition LabelInstanceTypeStable : string := "node.kubernetes.io/instance-type".
Definition CapacityTypeLabelKey : string := "karpenter.sh/capacity-type".
Definition ProvisionerNameLabelKey : string := "karpenter.sh/provisioner-name".
Definition NodePoolLabelKey : string := "karpenter.sh/nodepool".

(** [strings.ToLower], on ASCII. *)
Definition lower_ascii (c : ascii) : ascii :=
  let n := nat_of_ascii c in
  if (Nat.leb 65 n && Nat.leb n 90)%bool then ascii_of_nat (n + 32) else c.

Fixpoint ToLower (s : string) : string :=
  match s with
  | EmptyString => EmptyString
  | String c rest => String (lower_ascii c) (ToLower rest)
  end.

(** A Go map read at an absent key gives the zero value. *)
Definition label (m : gmap string string) (k : string) : string :=
  default EmptyString (m !! k).

(** The least and the greatest [time.Duration], an [int64] count of
    nanoseconds. *)
Definition minDuration : Z := - 2 ^ 63.
Definition maxDuration : Z := 2 ^ 63 - 1.

(** [func (t Time) Sub(u Time) Duration]: the duration [t - u]; when it
    does not fit a [Duration] the result is the least or the greatest
    duration. *)
Definition Time_Sub (t u : Z) : Z :=
  if t - u <? minDuration then minDuration
  else if maxDuration <? t - u then maxDuration
  else t - u.

Section Reconcile.
(** [c.kubeClient.Get], at the pod type and at the node type: the object
    it fills in, or the error. *)
Variable Get_Pod : NamespacedName -> error + Pod.
Variable Get_Node : string -> error + Node.

(** [func (c *Controller) makeLabels] *)
Definition makeLabels (pod : Pod) : error + gmap string string :=
  let metricLabels : gmap string string := ∅ in
  let metricLabels := <[podName := Name pod]> metricLabels in
  let metricLabels := <[podNameSpace := Namespace pod]> metricLabels in
  let selflink :=
    match OwnerReferences pod with
    | o :: _ =>
        "/apis/" +:+ APIVersion o +:+ "/namespaces/" +:+ Namespace pod
        +:+ "/" +:+ ToLower (Kind o) +:+ "s/" +:+ owner_Name o
    | [] => EmptyString
    end in
  let metricLabels := <[ownerSelfLink := selflink]> metricLabels in
  let metricLabels := <[podHostName := NodeName pod]> metricLabels in
  let metricLabels := <[podPhase := Phase pod]> metricLabels in
  let node0 := {| node_Labels := ∅ |} in
  let got :=
    if bool_decide (NodeName pod ≠ EmptyString)
    then match Get_Node (NodeName pod) with
         | inl err =>
             match IgnoreNotFound (Some err) with
             | Some e => inl e
             | None => inr node0
             end
         | inr n => inr n
         end
    else inr node0 in
  match got with
  | inl e => inl e
  | inr node =>
      let l := node_Labels node in
      inr (<[podNodePool := label l NodePoolLabelKey]>
           (<[podProvisioner := label l ProvisionerNameLabelKey]>
            (<[podHostInstanceType := label l LabelInstanceTypeStable]>
             (<[podHostCapacityType := label l CapacityTypeLabelKey]>
              (<[podHostArchitecture := label l LabelArchStable]>
               (<[podHostZone := label l LabelTopologyZone]>
                metricLabels))))))
  end.

(** [func (c *Controller) recordPodStartupMetric] *)
Definition recordPodStartupMetric (c : Controller) (pod : Pod) : Controller :=
  let key := NamespacedName_String (ObjectKeyFromObject pod) in
  if bool_decide (Phase pod = phasePending)
  then {| metricStore := metricStore c;
          pendingPods := {[key]} ∪ pendingPods c;
          podStartupTimeSummary := podStartupTimeSummary c |}
  else
    match List.find (fun cd => bool_decide (cond_Type cd = PodReady))
                    (Conditions pod) with
    | Some cond =>
        if bool_decide (key ∈ pendingPods c)
        then {| metricStore := metricStore c;
                pendingPods := pendingPods c ∖ {[key]};
                podStartupTimeSummary :=
                  Time_Sub (LastTransitionTime cond) (CreationTimestamp pod)
                  :: podStartupTimeSummary c |}
        else c
    | None => c
    end.

(** [func (c *Controller) Reconcile]: the controller afterwards, the
    result and the error. *)
Definition Reconcile (c : Controller) (req : NamespacedName)
  : Controller * Result * option error :=
  match Get_Pod req with
  | inl err =>
      let c :=
        if IsNotFound err
        then
          let pending := pendingPods c ∖ {[NamespacedName_String req]} in
          {| metricStore :=
               Store_Delete (NamespacedName_String req) (metricStore c);
             pendingPods := pending;
             podStartupTimeSummary := podStartupTimeSummary c |}
        else c in
      (c, Result_zero, IgnoreNotFound (Some err))
  | inr pod =>
      match makeLabels pod with
      | inl err => (c, Result_zero, Some err)
      | inr labels =>
          let key := NamespacedName_String (ObjectKeyFromObject pod) in
          let c :=
            {| metricStore :=
                 Store_Update key [ {| Value := 1; Labels := labels |} ]
                              (metricStore c);
               pendingPods := pendingPods c;
               podStartupTimeSummary := podStartupTimeSummary c |} in
          (recordPodStartupMetric c pod, Result_zero, None)
      end
  end.
End Reconcile.

(** [func labelNames() []string] *)
Definition labelNames : list string :=
  [ podName; podNameSpace; ownerSelfLink; podHostName; podProvisioner;
    podNodePool; podHostZone; podHostArchitecture; podHostCapacityType;
    podHostInstanceType; podPhase ].

(** [func NewController(kubeClient client.Client) controller.Controller]:
    an empty store and an empty set of pending pods (the client is the
    pair of functions [Reconcile] takes); the summary has observed
    nothing when the process starts. *)
Definition NewController : Controller :=
  {| metricStore := ∅; pendingPods := ∅; podStartupTimeSummary := [] |}.

(** One reconcile request, with what the client answers at that time. *)
Record Step := {
  step_Get_Pod : NamespacedName -> error + Pod;
  step_Get_Node : string -> error + Node;
  step_req : NamespacedName
}.

(** The controller after a sequence of reconciles. *)
Fixpoint run (c : Controller) (steps : list Step) : Controller :=
  match steps with
  | [] => c
  | s :: rest =>
      run (Reconcile (step_Get_Pod s) (step_Get_Node s) c (step_req s)).1.1
          rest
  end.

End pod.

(** ** pkg/test: options *)
Module test.

Record FeatureGates := { Drift : option bool }.

Record OptionsFields := {
  ServiceName : option string;
  DisableWebhook : option bool;
  WebhookPort : option Z;
  MetricsPort : option Z;
  WebhookMetricsPort : option Z;
  HealthProbePort : option Z;
  KubeClientQPS : option Z;
  KubeClientBurst : option Z;
  EnableProfiling : option bool;
  EnableLeaderElection : option bool;
  MemoryLimit : option Z;
  LogLevel : option string;
  BatchMaxDuration : option Z;
  BatchIdleDuration : option Z;
  fields_FeatureGates : FeatureGates
}.

(** [options.Options], as the struct literal of [test.Options] fills it. *)
Record options_Options := {
  opt_ServiceName : string;
  opt_DisableWebhook : bool;
  opt_WebhookPort : Z;
  opt_MetricsPort : Z;
  opt_WebhookMetricsPort : Z;
  opt_HealthProbePort : Z;
  opt_KubeClientQPS : Z;
  opt_KubeClientBurst : Z;
  opt_EnableProfiling : bool;
  opt_EnableLeaderElection : bool;
  opt_MemoryLimit : Z;
  opt_LogLevel : string;
  opt_BatchMaxDuration : Z;
  opt_BatchIdleDuration : Z;
  opt_FeatureGates_Drift : bool
}.

(** [lo.FromPtrOr] *)
Definition FromPtrOr {A : Type} (p : option A) (fallback : A) : A :=
  match p with
  | Some v => v
  | None => fallback
  end.

(** [time.Second], in nanoseconds. *)
Definition Second : Z := 1000000000.

(** The zero [OptionsFields{}] that [Options] starts from. *)
Definition OptionsFields_zero : OptionsFields :=
  {| ServiceName := None; DisableWebhook := None; WebhookPort := None;
     MetricsPort := None; WebhookMetricsPort := None;
     HealthProbePort := None; KubeClientQPS := None;
     KubeClientBurst := None; EnableProfiling := None;
     EnableLeaderElection := None; MemoryLimit := None; LogLevel := None;
     BatchMaxDuration := None; BatchIdleDuration := None;
     fields_FeatureGates := {| Drift := None |} |}.

(** [func Options(overrides ...OptionsFields) *options.Options], from the
    point where [mergo.Merge] has folded the overrides into [opts]; with no
    override [opts] is [OptionsFields_zero]. *)
Definition Options (opts : OptionsFields) : options_Options :=
  {| opt_ServiceName := FromPtrOr (ServiceName opts) EmptyString;
     opt_DisableWebhook := FromPtrOr (DisableWebhook opts) false;
     opt_WebhookPort := FromPtrOr (WebhookPort opts) 8443;
     opt_MetricsPort := FromPtrOr (MetricsPort opts) 8000;
     opt_WebhookMetricsPort := FromPtrOr (WebhookMetricsPort opts) 8001;
     opt_HealthProbePort := FromPtrOr (HealthProbePort opts) 8081;
     opt_KubeClientQPS := FromPtrOr (KubeClientQPS opts) 200;
     opt_KubeClientBurst := FromPtrOr (KubeClientBurst opts) 300;
     opt_EnableProfiling := FromPtrOr (EnableProfiling opts) false;
     opt_EnableLeaderElection := FromPtrOr (EnableLeaderElection opts) true;
     opt_MemoryLimit := FromPtrOr (MemoryLimit opts) (-1);
     opt_LogLevel := FromPtrOr (LogLevel opts) EmptyString;
     opt_BatchMaxDuration := FromPtrOr (BatchMaxDuration opts) (10 * Second);
     opt_BatchIdleDuration := FromPtrOr (BatchIdleDuration opts) Second;
     opt_FeatureGates_Drift :=
       FromPtrOr (Drift (fields_FeatureGates opts)) false |}.

End test.

(** ** pkg/controllers/disruption

    The disruption controller and its queue are not among the sources
    (only their tests are); the definitions of this module follow the
    design of the specification, sections 3, 4.1, 4.6 and 4.7. *)
Module disruption.

(** Modelled from the spec: the annotation key named by the tests
    ([v1beta1.DoNotDisruptAnnotationKey]). *)
Definition DoNotDisruptAnnotationKey : string := "karpenter.sh/do-not-disrupt".

(** Modelled from the spec: the cordoning taint that disruption writes
    ([v1beta1.DisruptionNoScheduleTaint]). *)
Definition DisruptionNoScheduleTaint : v1beta1.Taint :=
  {| v1beta1.taint_Key := "karpenter.sh/disruption";
     v1beta1.taint_Value := "disrupting";
     v1beta1.taint_Effect := "NoSchedule" |}.

(** Modelled from the spec: the NodeClaim of section 3, with its provider
    id (populated after Launch), the status conditions the engine reads
    ([Some t]: the condition is True since [t]) and the price hint of its
    offering.  The stable name of a node-claim is the key under which
    Cluster State holds it. *)
Record NodeClaim := {
  nc_ProviderID : option string;
  nc_NodePool : string;
  nc_Price : Z;
  nc_CreationTimestamp : Z;
  nc_Initialized : bool;
  nc_Drifted : option Z;
  nc_Empty : option Z
}.

(** Modelled from the spec: the orchestrator's Node of section 3; its
    provider id is the key under which Cluster State holds it. *)
Record Node := {
  node_Name : string;
  node_Annotations : gmap string string;
  node_Taints : list v1beta1.Taint
}.

Record Pod := {
  pod_Name : string;
  pod_NodeName : string;
  pod_Annotations : gmap string string;
  pod_Daemon : bool
}.

(** Modelled from the spec: a new-node-claim spec of a Scheduler plan. *)
Record NewNodeClaim := {
  new_NodePool : string;
  new_Price : Z
}.

(** Modelled from the spec: Cluster State (section 4.1) with the objects
    it mirrors: node-claims by name, nodes by provider id, the pods, the
    NodePools by name, the names marked for deletion, the clock of the
    tick and [Synced]. *)
Record Cluster := {
  nodeClaims : gmap string NodeClaim;
  nodes : gmap string Node;
  pods : list Pod;
  nodePools : gmap string v1beta1.NodePool;
  markedForDeletion : gset string;
  now : Z;
  synced : bool
}.

(** Modelled from the spec: a StateNode as a simulation reads it. *)
Record StateNode := {
  sn_NodeClaim : string;
  sn_Node : Node;
  sn_Initialized : bool;
  sn_MarkedForDeletion : bool;
  sn_Pods : list Pod
}.

Inductive Method := Expiration | Drift | Emptiness | Consolidation.

#[global] Instance Method_eq_dec : EqDecision Method.
Proof. solve_decision. Defined.

(** Modelled from the spec: a Command (Delete | Replace{old, new}) of
    section 4.6, tagged with the method that issued it; the old
    node-claims are given by name. *)
Inductive Command :=
| Delete (reason : Method) (old : list string)
| Replace (reason : Method) (old : list string) (new : list NewNodeClaim).

Definition cmd_reason (cmd : Command) : Method :=
  match cmd with
  | Delete r _ => r
  | Replace r _ _ => r
  end.

Definition cmd_candidates (cmd : Command) : list string :=
  match cmd with
  | Delete _ old => old
  | Replace _ old _ => old
  end.

(** The outcome of launching a replacement and waiting for it. *)
Inductive LaunchOutcome := Initialized | CreateFailed | TimedOut.

#[global] Instance LaunchOutcome_eq_dec : EqDecision LaunchOutcome.
Proof. solve_decision. Defined.

Definition hasDoNotDisrupt (annotations : gmap string string) : bool :=
  bool_decide (is_Some (annotations !! DoNotDisruptAnnotationKey)).

(** The pods bound to a node, and those of them a disruption has to
    reschedule (the non-daemon ones). *)
Definition podsOn (c : Cluster) (nd : Node) : list Pod :=
  List.filter (fun p => bool_decide (pod_NodeName p = node_Name nd)) (pods c).

Definition reschedulablePods (c : Cluster) (nd : Node) : list Pod :=
  List.filter (fun p => negb (pod_Daemon p)) (podsOn c nd).

(** A node is protected when it carries the do-not-disrupt annotation or
    hosts a pod that carries it. *)
Definition doNotDisrupt (c : Cluster) (nd : Node) : Prop :=
  is_Some (node_Annotations nd !! DoNotDisruptAnnotationKey)
  ∨ ∃ p, p ∈ pods c ∧ pod_NodeName p = node_Name nd
         ∧ is_Some (pod_Annotations p !! DoNotDisruptAnnotationKey).

(** Modelled from the spec: a node is matched to a node-claim via
    provider id. *)
Definition matchingNode (c : Cluster) (nc : NodeClaim) : option Node :=
  match nc_ProviderID nc with
  | Some pid => nodes c !! pid
  | None => None
  end.

Definition isEmpty (c : Cluster) (nc : NodeClaim) : bool :=
  match matchingNode c nc with
  | Some nd => bool_decide (reschedulablePods c nd = [])
  | None => true
  end.

(** The node-claims of the cluster, each with its name. *)
Definition allNodeClaims (c : Cluster) : list (string * NodeClaim) :=
  map_to_list (nodeClaims c).

(** Modelled from the spec: at most one disruption command per node-claim
    is in flight. *)
Definition inFlight (q : list Command) (name : string) : bool :=
  existsb (fun cmd => bool_decide (name ∈ cmd_candidates cmd)) q.

(** Modelled from the spec: the disruption budget, one non-empty command
    in flight per pool. *)
Definition poolBusy (c : Cluster) (q : list Command) (pool : string) : bool :=
  existsb (fun cmd =>
    existsb (fun name =>
      match nodeClaims c !! name with
      | Some nc => bool_decide (nc_NodePool nc = pool) && negb (isEmpty c nc)
      | None => false
      end) (cmd_candidates cmd)) q.

(** Modelled from the spec: candidate eligibility (section 4.6): the node
    is matched by provider id and Initialized, is not already marked for
    deletion, hosts no pod bearing the do-not-disrupt annotation, bears
    none itself, and budgets are respected. *)
Definition eligible (c : Cluster) (q : list Command)
           (cand : string * NodeClaim) : bool :=
  let '(name, nc) := cand in
  match matchingNode c nc with
  | None => false
  | Some nd =>
      nc_Initialized nc
      && negb (bool_decide (name ∈ markedForDeletion c))
      && negb (existsb (fun p => hasDoNotDisrupt (pod_Annotations p))
                       (podsOn c nd))
      && negb (hasDoNotDisrupt (node_Annotations nd))
      && negb (inFlight q name)
      && (isEmpty c nc || negb (poolBusy c q (nc_NodePool nc)))
  end.

Definition poolDisruption (c : Cluster) (nc : NodeClaim)
  : option v1beta1.Disruption :=
  (fun p => v1beta1.spec_Disruption (v1beta1.Spec p))
    <$> nodePools c !! nc_NodePool nc.

(** [Some d]: the duration is set and is not Never. *)
Definition consolidateAfter (d : v1beta1.Disruption) : option Z :=
  match v1beta1.ConsolidateAfter d with
  | Some ca => v1beta1.Duration ca
  | None => None
  end.

Definition consolidateNever (d : v1beta1.Disruption) : bool :=
  match v1beta1.ConsolidateAfter d with
  | Some ca => bool_decide (v1beta1.Duration ca = None)
  | None => false
  end.

Section Engine.
(** The options of the context, and the Scheduler of section 4.2: given
    the pods to place, the remaining nodes and the NodePools in Weight
    order it returns the new node-claims its plan needs, or [None] when
    some pod is left unschedulable. *)
Variable opts : test.options_Options.
Variable Scheduler :
  list Pod -> list StateNode -> list v1beta1.NodePool
  -> option (list NewNodeClaim).
(** The minimum savings threshold of consolidation. *)
Variable minSavings : Z.

(** Modelled from the spec: the four methods of section 4.6 and the
    boundaries of section 8. *)
Definition shouldDisrupt (m : Method) (c : Cluster) (nc : NodeClaim) : bool :=
  match m with
  | Expiration =>
      match poolDisruption c nc with
      | Some d =>
          match v1beta1.Duration (v1beta1.ExpireAfter d) with
          | Some after => now c - nc_CreationTimestamp nc >=? after
          | None => false
          end
      | None => false
      end
  | Drift =>
      test.opt_FeatureGates_Drift opts && bool_decide (is_Some (nc_Drifted nc))
  | Emptiness =>
      match poolDisruption c nc with
      | Some d =>
          bool_decide (v1beta1.ConsolidationPolicy d
                       = v1beta1.ConsolidationPolicyWhenEmpty)
          && isEmpty c nc
          && match consolidateAfter d, nc_Empty nc with
             | Some after, Some since => now c - since >=? after
             | _, _ => false
             end
      | None => false
      end
  | Consolidation =>
      match poolDisruption c nc with
      | Some d =>
          bool_decide (v1beta1.ConsolidationPolicy d
                       = v1beta1.ConsolidationPolicyWhenUnderutilized)
          && negb (consolidateNever d)
      | None => false
      end
  end.

Definition getCandidates (m : Method) (c : Cluster) (q : list Command)
  : list (string * NodeClaim) :=
  List.filter (fun cand => eligible c q cand && shouldDisrupt m c cand.2)
              (allNodeClaims c).

(** Modelled from the spec: ordering within drift and expiration, the
    earliest transition first, ties by object name. *)
Definition transitionTime (m : Method) (c : Cluster) (nc : NodeClaim) : Z :=
  match m with
  | Drift => default 0 (nc_Drifted nc)
  | Expiration =>
      match poolDisruption c nc with
      | Some d =>
          nc_CreationTimestamp nc
          + default 0 (v1beta1.Duration (v1beta1.ExpireAfter d))
      | None => 0
      end
  | _ => 0
  end.

Definition earlier (m : Method) (c : Cluster) (a b : string * NodeClaim)
  : Prop :=
  transitionTime m c a.2 < transitionTime m c b.2
  ∨ (transitionTime m c a.2 = transitionTime m c b.2
     ∧ String.leb a.1 b.1 = true).

#[local] Instance earlier_dec m c a b : Decision (earlier m c a b).
Proof. unfold earlier. apply _. Defined.

Definition stateNodes (c : Cluster) : list StateNode :=
  omap (fun cand : string * NodeClaim =>
          (fun nd =>
             {| sn_NodeClaim := cand.1;
                sn_Node := nd;
                sn_Initialized := nc_Initialized cand.2;
                sn_MarkedForDeletion :=
                  bool_decide (cand.1 ∈ markedForDeletion c);
                sn_Pods := podsOn c nd |})
            <$> matchingNode c cand.2)
       (allNodeClaims c).

(** Modelled from the spec: validation (section 4.6), a simulated
    Cluster State with the candidates removed and the Scheduler re-run
    on the affected pods. *)
Definition simulate (c : Cluster) (cands : list (string * NodeClaim))
  : option (list NewNodeClaim) :=
  Scheduler
    (flat_map (fun cand : string * NodeClaim =>
                 match matchingNode c cand.2 with
                 | Some nd => reschedulablePods c nd
                 | None => []
                 end) cands)
    (List.filter (fun sn =>
                    negb (bool_decide (sn_NodeClaim sn ∈ cands.*1))
                    && negb (sn_MarkedForDeletion sn))
                 (stateNodes c))
    (v1beta1.OrderByWeight (map_to_list (nodePools c)).*2).

(** The first candidate, in order, whose pods all find a home. *)
Fixpoint firstReplaceable (m : Method) (c : Cluster)
         (cands : list (string * NodeClaim)) : option Command :=
  match cands with
  | [] => None
  | cand :: rest =>
      match simulate c [cand] with
      | Some [] => Some (Delete m [cand.1])
      | Some new => Some (Replace m [cand.1] new)
      | None => firstReplaceable m c rest
      end
  end.

Definition totalPrice (cands : list (string * NodeClaim)) : Z :=
  foldr (fun cand acc => nc_Price cand.2 + acc) 0 cands.

(** Modelled from the spec: a consolidation action is a removal whose
    pods reschedule onto remaining capacity, or a replacement by a
    single node-claim whose cost undercuts the current cost by more
    than the threshold. *)
Definition consolidateTo (c : Cluster) (cands : list (string * NodeClaim))
  : option Command :=
  match simulate c cands with
  | Some [] => Some (Delete Consolidation cands.*1)
  | Some [new] =>
      if new_Price new + minSavings <? totalPrice cands
      then Some (Replace Consolidation cands.*1 [new])
      else None
  | _ => None
  end.

Fixpoint firstConsolidatable (c : Cluster) (cands : list (string * NodeClaim))
  : option Command :=
  match cands with
  | [] => None
  | cand :: rest =>
      match consolidateTo c [cand] with
      | Some cmd => Some cmd
      | None => firstConsolidatable c rest
      end
  end.

(** Modelled from the spec: one method of the engine.  Empty candidates
    go in one parallel batch; otherwise the first non-empty candidate
    that validates is taken. *)
Definition computeCommand (m : Method) (c : Cluster) (q : list Command)
  : option Command :=
  let cands := merge_sort (earlier m c) (getCandidates m c q) in
  match m with
  | Consolidation =>
      match (if bool_decide (2 <= length cands)%nat
             then consolidateTo c cands else None) with
      | Some cmd => Some cmd
      | None => firstConsolidatable c cands
      end
  | _ =>
      match List.filter (fun cand => isEmpty c cand.2) cands with
      | [] => firstReplaceable m c cands
      | empties => Some (Delete m empties.*1)
      end
  end.

(** An approved action is pushed to the Disruption Queue. *)
Definition disrupt (c : Cluster) (q : list Command) (m : Method)
  : list Command :=
  match computeCommand m c q with
  | Some cmd => q ++ [cmd]
  | None => q
  end.

(** Modelled from the spec: the [Reconcile] of the disruption controller
    (pkg/controllers/disruption, of which only the tests are among the
    sources), one reconcile of the Disruption Engine: the methods in
    strict priority order, once Cluster State is synced. *)
Definition Reconcile (c : Cluster) (q : list Command) : list Command :=
  if synced c
  then fold_left (disrupt c) [Expiration; Drift; Emptiness; Consolidation] q
  else q.
End Engine.

(** *** The Disruption Queue (section 4.7) *)

Definition set_nodeClaims (v : gmap string NodeClaim) (c : Cluster) : Cluster :=
  {| nodeClaims := v; nodes := nodes c; pods := pods c;
     nodePools := nodePools c; markedForDeletion := markedForDeletion c;
     now := now c; synced := synced c |}.

Definition set_nodes (v : gmap string Node) (c : Cluster) : Cluster :=
  {| nodeClaims := nodeClaims c; nodes := v; pods := pods c;
     nodePools := nodePools c; markedForDeletion := markedForDeletion c;
     now := now c; synced := synced c |}.

Definition set_pods (v : list Pod) (c : Cluster) : Cluster :=
  {| nodeClaims := nodeClaims c; nodes := nodes c; pods := v;
     nodePools := nodePools c; markedForDeletion := markedForDeletion c;
     now := now c; synced := synced c |}.

Definition set_markedForDeletion (v : gset string) (c : Cluster) : Cluster :=
  {| nodeClaims := nodeClaims c; nodes := nodes c; pods := pods c;
     nodePools := nodePools c; markedForDeletion := v;
     now := now c; synced := synced c |}.

(** Modelled from the spec: [MarkForDeletion(names...)], idempotent. *)
Definition MarkForDeletion (names : list string) (c : Cluster) : Cluster :=
  set_markedForDeletion (markedForDeletion c ∪ list_to_set names) c.

Definition UnmarkForDeletion (names : list string) (c : Cluster) : Cluster :=
  set_markedForDeletion (markedForDeletion c ∖ list_to_set names) c.

Definition addTaint (nd : Node) : Node :=
  {| node_Name := node_Name nd;
     node_Annotations := node_Annotations nd;
     node_Taints :=
       if bool_decide (DisruptionNoScheduleTaint ∈ node_Taints nd)
       then node_Taints nd
       else node_Taints nd ++ [DisruptionNoScheduleTaint] |}.

Definition removeTaint (nd : Node) : Node :=
  {| node_Name := node_Name nd;
     node_Annotations := node_Annotations nd;
     node_Taints :=
       List.filter (fun t => negb (bool_decide (t = DisruptionNoScheduleTaint)))
                   (node_Taints nd) |}.

(** The node of a named node-claim, changed in place. *)
Definition alterNode (f : Node -> Node) (c : Cluster) (name : string) : Cluster :=
  match nodeClaims c !! name ≫= nc_ProviderID with
  | Some pid => set_nodes (alter f pid (nodes c)) c
  | None => c
  end.

(** Modelled from the spec: cordoning the old nodes with the disruption
    taint, and untainting them. *)
Definition cordon (names : list string) (c : Cluster) : Cluster :=
  fold_left (alterNode addTaint) names c.

Definition untaint (names : list string) (c : Cluster) : Cluster :=
  fold_left (alterNode removeTaint) names c.

(** Modelled from the spec: a node-claim object is created under a name
    that is not in use, not yet launched. *)
Definition createNodeClaim (c : Cluster) (spec : NewNodeClaim)
  : Cluster * string :=
  let name := fresh (dom (nodeClaims c)) in
  (set_nodeClaims
     (<[name := {| nc_ProviderID := None;
                   nc_NodePool := new_NodePool spec;
                   nc_Price := new_Price spec;
                   nc_CreationTimestamp := now c;
                   nc_Initialized := false;
                   nc_Drifted := None; nc_Empty := None |}]> (nodeClaims c)) c,
   name).

Fixpoint createNodeClaims (c : Cluster) (specs : list NewNodeClaim)
  : Cluster * list string :=
  match specs with
  | [] => (c, [])
  | spec :: rest =>
      let '(c1, name) := createNodeClaim c spec in
      let '(c2, names) := createNodeClaims c1 rest in
      (c2, name :: names)
  end.

(** Modelled from the spec: a launched node-claim gets a provider id that
    is not in use, its node registers under that id and the node-claim
    becomes Initialized. *)
Definition initializeNodeClaim (c : Cluster) (name : string) : Cluster :=
  match nodeClaims c !! name with
  | Some nc =>
      let pid := fresh (dom (nodes c)) in
      set_nodes
        (<[pid := {| node_Name := name; node_Annotations := ∅;
                     node_Taints := [] |}]> (nodes c))
        (set_nodeClaims
           (<[name := {| nc_ProviderID := Some pid;
                         nc_NodePool := nc_NodePool nc;
                         nc_Price := nc_Price nc;
                         nc_CreationTimestamp := nc_CreationTimestamp nc;
                         nc_Initialized := true;
                         nc_Drifted := None; nc_Empty := None |}]>
              (nodeClaims c)) c)
  | None => c
  end.

Definition removeNodeClaim (c : Cluster) (name : string) : Cluster :=
  set_nodeClaims (delete name (nodeClaims c)) c.

(** Modelled from the spec: deleting a node-claim triggers the drain and
    the termination of its node; its pods leave with it. *)
Definition deleteNodeClaim (c : Cluster) (name : string) : Cluster :=
  match nodeClaims c !! name with
  | Some nc =>
      let c1 :=
        match nc_ProviderID nc with
        | Some pid =>
            match nodes c !! pid with
            | Some nd =>
                set_pods
                  (List.filter
                     (fun p => negb (bool_decide (pod_NodeName p = node_Name nd)))
                     (pods c))
                  (set_nodes (delete pid (nodes c)) c)
            | None => c
            end
        | None => c
        end in
      set_markedForDeletion (markedForDeletion c1 ∖ {[name]})
                            (removeNodeClaim c1 name)
  | None => c
  end.

Section Queue.
(** The cloud provider and the wait for the replacement, as one
    outcome per new node-claim. *)
Variable CloudProvider_Create : NewNodeClaim -> LaunchOutcome.

Definition allInitialized (new : list NewNodeClaim) : bool :=
  forallb (fun spec => bool_decide (CloudProvider_Create spec = Initialized))
          new.

(** The state in which the replacements of a Replace command have been
    attempted: the old nodes are marked and cordoned and the new
    node-claims exist; with it, the names of the new node-claims. *)
Definition attempt (c : Cluster) (old : list string) (new : list NewNodeClaim)
  : Cluster * list string :=
  createNodeClaims (cordon old (MarkForDeletion old c)) new.

(** Modelled from the spec: how the disruption queue (not among the
    sources) carries out a command (section 4.7).
    Replace: (a) mark the old nodes for deletion and cordon them,
    (b) create the new node-claims and wait for each to reach
    Initialized, (c) delete the old node-claims; if (b) times out or a
    replacement fails, the new node-claims are removed and the old
    nodes are untainted.  Delete: mark for deletion and delete. *)
Definition execute (c : Cluster) (cmd : Command) : Cluster :=
  match cmd with
  | Delete _ old =>
      fold_left deleteNodeClaim old (MarkForDeletion old c)
  | Replace _ old new =>
      let '(c2, created) := attempt c old new in
      if allInitialized new
      then fold_left deleteNodeClaim old
                     (fold_left initializeNodeClaim created c2)
      else untaint old
             (UnmarkForDeletion old (fold_left removeNodeClaim created c2))
  end.

(** Modelled from the spec: the [Reconcile] of the disruption queue (not
    among the sources); it takes the command at the head of the FIFO, and
    the command leaves the queue whether it was carried out or dropped. *)
Definition Queue_Reconcile (c : Cluster) (q : list Command)
  : Cluster * list Command :=
  match q with
  | [] => (c, [])
  | cmd :: rest => (execute c cmd, rest)
  end.

Fixpoint drain (c : Cluster) (q : list Command) : Cluster :=
  match q with
  | [] => c
  | cmd :: rest => drain (execute c cmd) rest
  end.
End Queue.

(** What a pass has to leave alone for a node-claim [name] with node
    [nd] under provider id [pid]: the two objects stay, and no node-claim
    among the names [N] that commands may touch points at that node. *)
Definition Kept (name : string) (nc : NodeClaim) (pid : string) (nd : Node)
           (N : list string) (c : Cluster) : Prop :=
  nodeClaims c !! name = Some nc
  ∧ nodes c !! pid = Some nd
  ∧ ∀ n nc', n ∈ N -> nodeClaims c !! n = Some nc' ->
             nc_ProviderID nc' ≠ Some pid.

Section Pass.
Variable opts : test.options_Options.
Variable Scheduler :
  list Pod -> list StateNode -> list v1beta1.NodePool
  -> option (list NewNodeClaim).
Variable minSavings : Z.
Variable CloudProvider_Create : NewNodeClaim -> LaunchOutcome.

(** Modelled from the spec: a disruption pass (one tick cycle), the
    engine's reconcile on an empty queue followed by the queue carrying
    out what was issued. *)
Definition pass (c : Cluster) : Cluster :=
  drain CloudProvider_Create c (Reconcile opts Scheduler minSavings c []).
End Pass.

End disruption.

(** ** Concrete inputs used by the examples below *)
Module Examples.

Definition emptyTemplate : v1beta1.NodeClaimTemplate :=
  {| v1beta1.template_ObjectMeta :=
       {| v1beta1.Labels := ∅; v1beta1.Annotations := ∅ |};
     v1beta1.template_Spec :=
       {| v1beta1.Taints := []; v1beta1.Requirements := [];
          v1beta1.Resources_Requests := ∅ |} |}.

(** A NodePool with the given name, weight and disruption policy. *)
Definition nodePool (name : string) (weight : option Z)
           (d : v1beta1.Disruption) : v1beta1.NodePool :=
  {| v1beta1.pool_ObjectMeta :=
       {| v1beta1.Name := name; v1beta1.meta_Labels := ∅;
          v1beta1.meta_Annotations := ∅ |};
     v1beta1.Spec :=
       {| v1beta1.Template := emptyTemplate;
          v1beta1.spec_Disruption := d;
          v1beta1.spec_Limits := None;
          v1beta1.Weight := weight |};
     v1beta1.Status := {| v1beta1.status_Resources := ∅ |} |}.

(** A template with the given labels and requirements. *)
Definition template (labels : gmap string string)
           (reqs : list v1beta1.NodeSelectorRequirement)
  : v1beta1.NodeClaimTemplate :=
  {| v1beta1.template_ObjectMeta :=
       {| v1beta1.Labels := labels; v1beta1.Annotations := ∅ |};
     v1beta1.template_Spec :=
       {| v1beta1.Taints := []; v1beta1.Requirements := reqs;
          v1beta1.Resources_Requests := ∅ |} |}.

(** [v1beta1.NodePoolLabelKey] *)
Definition NodePoolLabelKey : string := "karpenter.sh/nodepool".

(** A template that uses the nodepool key in a label and in a requirement,
    one whose only label is an ordinary one, and one whose only label has
    a key that is not a qualified name. *)
Definition restrictedTemplate : v1beta1.NodeClaimTemplate :=
  template {[ NodePoolLabelKey := "default" ]}
           [ {| v1beta1.Key := NodePoolLabelKey; v1beta1.Operator := "In";
                v1beta1.Values := ["default"] |} ].

Definition plainTemplate : v1beta1.NodeClaimTemplate :=
  template {[ "app" := "web" ]} [].

Definition badLabelTemplate : v1beta1.NodeClaimTemplate :=
  template {[ "my label" := "x" ]} [].

(** A template with three labels, each of which is refused for another
    reason: the nodepool key, a key that is not a qualified name, and a
    value that is not a label value. *)
Definition threeBadLabelsTemplate : v1beta1.NodeClaimTemplate :=
  template (<[ NodePoolLabelKey := "default" ]>
              (<[ "my label" := "x" ]> {[ "team" := "bad value!" ]})) [].

(** A pod metrics controller that tracks the pod "default/web", a request
    for that pod, and a client for which the pod is gone. *)
Definition request : pod.NamespacedName :=
  {| pod.nn_Namespace := "default"; pod.nn_Name := "web" |}.

Definition controller : pod.Controller :=
  {| pod.metricStore :=
       {[ "default/web" := [ {| pod.Value := 1; pod.Labels := ∅ |} ] ]};
     pod.pendingPods := {[ "default/web" ]};
     pod.podStartupTimeSummary := [] |}.

Definition Get_gone (key : pod.NamespacedName) : pod.error + pod.Pod :=
  inl (pod.NotFoundError "not found").

Definition Get_no_node (name : string) : pod.error + pod.Node :=
  inl (pod.NotFoundError "not found").

(** The policy of the drift tests: ConsolidateAfter and ExpireAfter are
    both Never. *)
Definition neverDisruption : v1beta1.Disruption :=
  {| v1beta1.ConsolidateAfter := Some {| v1beta1.Duration := None |};
     v1beta1.ConsolidationPolicy := v1beta1.ConsolidationPolicyWhenUnderutilized;
     v1beta1.ExpireAfter := {| v1beta1.Duration := None |} |}.

(** The cluster of the drift tests: an initialized, drifted node-claim
    with its node, in a pool whose ConsolidateAfter and ExpireAfter are
    Never. *)
Definition driftedClaim (pid : string) (since : Z) : disruption.NodeClaim :=
  {| disruption.nc_ProviderID := Some pid;
     disruption.nc_NodePool := "default";
     disruption.nc_Price := 10;
     disruption.nc_CreationTimestamp := 0;
     disruption.nc_Initialized := true;
     disruption.nc_Drifted := Some since;
     disruption.nc_Empty := None |}.

Definition node (name : string) (annotations : gmap string string)
  : disruption.Node :=
  {| disruption.node_Name := name;
     disruption.node_Annotations := annotations;
     disruption.node_Taints := [] |}.

Definition replicaSetPod (name nodeName : string) : disruption.Pod :=
  {| disruption.pod_Name := name;
     disruption.pod_NodeName := nodeName;
     disruption.pod_Annotations := ∅;
     disruption.pod_Daemon := false |}.

Definition cluster (claims : gmap string disruption.NodeClaim)
           (nds : gmap string disruption.Node) (ps : list disruption.Pod)
  : disruption.Cluster :=
  {| disruption.nodeClaims := claims;
     disruption.nodes := nds;
     disruption.pods := ps;
     disruption.nodePools :=
       {[ "default" := nodePool "default" None neverDisruption ]};
     disruption.markedForDeletion := ∅;
     disruption.now := 600;
     disruption.synced := true |}.

(** One drifted node-claim whose node hosts a replica-set pod. *)
Definition driftedCluster : disruption.Cluster :=
  cluster {[ "claim-a" := driftedClaim "provider-a" 5 ]}
          {[ "provider-a" := node "node-a" ∅ ]}
          [ replicaSetPod "pod-1" "node-a" ].

(** Two drifted node-claims; the node of the first carries the
    do-not-disrupt annotation, the node of the second hosts a replica-set
    pod. *)
Definition protectedCluster : disruption.Cluster :=
  cluster {[ "claim-a" := driftedClaim "provider-a" 5;
             "claim-b" := driftedClaim "provider-b" 3 ]}
          {[ "provider-a" :=
               node "node-a" {[ disruption.DoNotDisruptAnnotationKey := "true" ]};
             "provider-b" := node "node-b" ∅ ]}
          [ replicaSetPod "pod-1" "node-b" ].

Definition driftEnabled : test.options_Options :=
  test.Options
    {| test.ServiceName := None; test.DisableWebhook := None;
       test.WebhookPort := None; test.MetricsPort := None;
       test.WebhookMetricsPort := None; test.HealthProbePort := None;
       test.KubeClientQPS := None; test.KubeClientBurst := None;
       test.EnableProfiling := None; test.EnableLeaderElection := None;
       test.MemoryLimit := None; test.LogLevel := None;
       test.BatchMaxDuration := None; test.BatchIdleDuration := None;
       test.fields_FeatureGates := {| test.Drift := Some true |} |}.

(** [test.Options()], without overrides. *)
Definition defaultOptions : test.options_Options :=
  test.Options test.OptionsFields_zero.

Definition replacement : disruption.NewNodeClaim :=
  {| disruption.new_NodePool := "default"; disruption.new_Price := 5 |}.

(** A Scheduler that places every pod on one new node-claim. *)
Definition oneNewNode (pending : list disruption.Pod)
           (remaining : list disruption.StateNode)
           (pools : list v1beta1.NodePool)
  : option (list disruption.NewNodeClaim) :=
  match pending with
  | [] => Some []
  | _ => Some [replacement]
  end.

(** Cloud providers that reject Create, and that launch every node. *)
Definition rejectCreate (spec : disruption.NewNodeClaim)
  : disruption.LaunchOutcome := disruption.CreateFailed.

Definition launchAll (spec : disruption.NewNodeClaim)
  : disruption.LaunchOutcome := disruption.Initialized.

(** A pod as the replica set creates it, unbound and Pending, and the same
    pod once it runs on a node and is Ready; the clients that find them,
    and a client that finds the node. *)
Definition pendingPod : pod.Pod :=
  {| pod.Name := "web"; pod.Namespace := "default";
     pod.OwnerReferences :=
       [ {| pod.APIVersion := "apps/v1"; pod.Kind := "ReplicaSet";
            pod.owner_Name := "web-rs" |} ];
     pod.NodeName := EmptyString;
     pod.Phase := pod.phasePending;
     pod.Conditions := [];
     pod.CreationTimestamp := 100 |}.

Definition runningPod : pod.Pod :=
  {| pod.Name := "web"; pod.Namespace := "default";
     pod.OwnerReferences :=
       [ {| pod.APIVersion := "apps/v1"; pod.Kind := "ReplicaSet";
            pod.owner_Name := "web-rs" |} ];
     pod.NodeName := "node-a";
     pod.Phase := "Running";
     pod.Conditions :=
       [ {| pod.cond_Type := "Initialized"; pod.LastTransitionTime := 110 |};
         {| pod.cond_Type := pod.PodReady; pod.LastTransitionTime := 130 |} ];
     pod.CreationTimestamp := 100 |}.

Definition Get_pending (key : pod.NamespacedName) : pod.error + pod.Pod :=
  inr pendingPod.

Definition Get_running (key : pod.NamespacedName) : pod.error + pod.Pod :=
  inr runningPod.

Definition Get_node_a (name : string) : pod.error + pod.Node :=
  inr {| pod.node_Labels := {[ pod.LabelTopologyZone := "zone-1" ]} |}.

End Examples.

(** * Properties *)

(** ** Limits *)
Section LimitsProperties.
Import v1beta1.

Lemma Cmp_pos (usage limit : Z) :
  (Cmp usage limit >? 0) = true <-> limit < usage.
Proof.
  unfold Cmp. destruct (Z.compare_spec usage limit); split; intros; try lia; try done.
Qed.

Lemma ExceededBy_range_None (lm : gmap string Z) (entries : list (string * Z)) :
  ExceededBy_range lm entries = None
  <-> ∀ name usage limit,
      (name, usage) ∈ entries -> lm !! name = Some limit -> usage <= limit.
Proof.
  induction entries as [|[name usage] rest IH]; simpl.
  - split; [|done]. intros _ ? ? ? H. by apply elem_of_nil in H.
  - destruct (lm !! name) as [limit|] eqn:Hl.
    + destruct (Cmp usage limit >? 0) eqn:Hc.
      * split; [done|]. intros H. apply Cmp_pos in Hc.
        specialize (H name usage limit (list_elem_of_here _ _) Hl). lia.
      * rewrite IH. split; intros H n u li Hin Hli.
        -- apply elem_of_cons in Hin as [Heq|Hin]; [|by eapply H].
           simplify_eq. destruct (Z.le_gt_cases usage limit) as [|Hgt]; [done|].
           apply Cmp_pos in Hgt. congruence.
        -- eapply H; [|done]. by apply list_elem_of_further.
    + rewrite IH. split; intros H n u li Hin Hli.
      * apply elem_of_cons in Hin as [Heq|Hin]; [|by eapply H].
        simplify_eq.
      * eapply H; [|done]. by apply list_elem_of_further.
Qed.

Lemma ExceededBy_range_Some (lm : gmap string Z) (entries : list (string * Z)) e :
  ExceededBy_range lm entries = Some e ->
  (le_resourceName e, le_usage e) ∈ entries
  ∧ lm !! le_resourceName e = Some (le_limit e)
  ∧ le_limit e < le_usage e.
Proof.
  induction entries as [|[name usage] rest IH]; simpl; [done|].
  destruct (lm !! name) as [limit|] eqn:Hl.
  - destruct (Cmp usage limit >? 0) eqn:Hc.
    + intros [= <-]. simpl. apply Cmp_pos in Hc.
      split; [apply list_elem_of_here|done].
    + intros H. destruct (IH H) as (? & ? & ?).
      split; [by apply list_elem_of_further|done].
  - intros H. destruct (IH H) as (? & ? & ?).
    split; [by apply list_elem_of_further|done].
Qed.

(** C3: [ExceededBy] returns nil for a nil receiver; for a non-nil
    receiver it returns nil exactly when every resource present in both
    maps has usage at most its limit (equality is accepted, resources
    without a limit are unconstrained); and an error it returns names a
    resource of both maps, with its usage, its limit, and the usage
    above the limit.  This holds for every order in which the range
    over [resources] may visit the entries. *)
Theorem ExceededBy_correct (l : option (gmap string Z)) (resources : gmap string Z)
        (order : list (string * Z)) :
  order ≡ₚ map_to_list resources ->
  (l = None -> ExceededBy_in_order l order = None)
  ∧ (∀ lm, l = Some lm ->
       (ExceededBy_in_order l order = None
        <-> ∀ name usage limit,
            resources !! name = Some usage -> lm !! name = Some limit ->
            usage <= limit)
       ∧ (∀ e, ExceededBy_in_order l order = Some e ->
            resources !! le_resourceName e = Some (le_usage e)
            ∧ lm !! le_resourceName e = Some (le_limit e)
            ∧ le_limit e < le_usage e)).
Proof.
  intros Hperm. split; [by intros ->|].
  intros lm ->. simpl.
  assert (Hin : ∀ name usage,
             (name, usage) ∈ order <-> resources !! name = Some usage).
  { intros. rewrite Hperm. apply elem_of_map_to_list. }
  split.
  - rewrite ExceededBy_range_None. split; intros H n u li.
    + intros Hr. apply H. by apply Hin.
    + intros Ho. apply H. by apply Hin.
  - intros e He. apply ExceededBy_range_Some in He as (Ho & ? & ?).
    split; [by apply Hin|done].
Qed.

(** The theorem at a concrete call: usage equal to the limit, and a
    resource without a limit. *)
Lemma ExceededBy_correct_witness :
  let l : option (gmap string Z) := Some {[ "cpu" := 4 ]} in
  let resources : gmap string Z := {[ "cpu" := 4; "memory" := 9 ]} in
  map_to_list resources ≡ₚ map_to_list resources
  ∧ ExceededBy l resources = None.
Proof.
  intros l resources. split; [reflexivity|].
  pose proof (ExceededBy_correct l resources (map_to_list resources)
                                 (reflexivity _)) as [_ H].
  destruct (H _ eq_refl) as [[_ Hnone] _]. apply Hnone.
  intros name usage limit Hu Hl.
  destruct (decide (name = "cpu")) as [->|Hne].
  - vm_compute in Hu, Hl. simplify_eq. lia.
  - unfold l in Hl. rewrite lookup_singleton_ne in Hl; [done|congruence].
Defined.
End LimitsProperties.

(** ** OrderByWeight *)
Section OrderByWeightProperties.
Import v1beta1.

Lemma insert_left_Permutation {A} (less : A -> A -> bool) x rp :
  insert_left less x rp ≡ₚ x :: rp.
Proof.
  induction rp as [|y rest IH]; simpl; [done|].
  destruct (less x y); [|done].
  rewrite IH. apply Permutation_swap.
Qed.

Lemma sort_Slice_Permutation {A} (less : A -> A -> bool) (l : list A) :
  sort_Slice less l ≡ₚ l.
Proof.
  unfold sort_Slice. rewrite <- Permutation_rev.
  assert (H : ∀ acc, fold_left (fun rp e => insert_left less e rp) l acc
                     ≡ₚ l ++ acc).
  { induction l as [|x l IH]; intros acc; simpl; [done|].
    rewrite IH, insert_left_Permutation. by rewrite Permutation_middle. }
  rewrite H. by rewrite app_nil_r.
Qed.

Lemma insert_left_ascending x rp :
  StronglySorted (flip weight_desc) rp ->
  StronglySorted (flip weight_desc) (insert_left weight_less x rp).
Proof.
  induction rp as [|y rest IH]; simpl; intros Hs.
  - repeat constructor.
  - apply StronglySorted_cons in Hs as [Hall Hs].
    unfold weight_less at 1. fold (weight x) (weight y).
    destruct (Z.gtb_spec (weight x) (weight y)) as [Hgt|Hle].
    + apply StronglySorted_cons. split; [|by apply IH].
      rewrite insert_left_Permutation. constructor; [|done].
      unfold flip, weight_desc. lia.
    + apply StronglySorted_cons. split.
      * constructor; [done|].
        eapply Forall_impl; [exact Hall|].
        unfold flip, weight_desc. intros z Hz. lia.
      * by apply StronglySorted_cons.
Qed.

Lemma StronglySorted_rev_flip {A} (R : relation A) (l : list A) :
  StronglySorted (flip R) l -> StronglySorted R (rev l).
Proof.
  induction l as [|x l IH]; simpl; intros Hs; [constructor|].
  apply StronglySorted_cons in Hs as [Hall Hs].
  apply StronglySorted_app. split_and!; [|by apply IH|repeat constructor].
  intros a b Ha Hb. apply list_elem_of_singleton in Hb as ->.
  apply list_elem_of_In, in_rev, list_elem_of_In in Ha.
  rewrite Forall_forall in Hall. by apply Hall.
Qed.

(** C4, as amended: [OrderByWeight] rearranges the items into descending
    order of weight, a nil weight counting as 0; nothing is promised on
    the order of items of equal weight. *)
Theorem OrderByWeight_descending (Items : list NodePool) :
  OrderByWeight Items ≡ₚ Items
  ∧ StronglySorted weight_desc (OrderByWeight Items).
Proof.
  split; [apply sort_Slice_Permutation|].
  unfold OrderByWeight, sort_Slice. apply StronglySorted_rev_flip.
  assert (H : ∀ acc, StronglySorted (flip weight_desc) acc ->
              StronglySorted (flip weight_desc)
                (fold_left (fun rp e => insert_left weight_less e rp)
                           Items acc)).
  { induction Items as [|x l IH]; intros acc Hacc; simpl; [done|].
    apply IH. by apply insert_left_ascending. }
  apply H. constructor.
Qed.

(** C4, as stated, fails: two NodePools of equal (nil) weight given in
    the order "b", "a" stay in that order, so the names of equal-weight
    items do not ascend. *)
Lemma OrderByWeight_name_order_counterexample :
  let Items := [ Examples.nodePool "b" None Examples.neverDisruption;
                 Examples.nodePool "a" None Examples.neverDisruption ] in
  OrderByWeight Items = Items
  ∧ ¬ StronglySorted weight_desc_name_asc (OrderByWeight Items).
Proof.
  intros Items. split; [reflexivity|].
  change (OrderByWeight Items) with Items.
  intros Hs. apply StronglySorted_cons in Hs as [Hall _].
  apply Forall_cons in Hall as [[Hlt|[_ Hname]] _].
  - vm_compute in Hlt. discriminate.
  - vm_compute in Hname. discriminate.
Qed.
End OrderByWeightProperties.

(** ** Disruption.validate *)
Section DisruptionValidateProperties.
Import v1beta1.

(** C5, as amended: [validate] rejects a disruption policy exactly when
    a duration is negative, or ConsolidateAfter is a duration (not the
    literal Never) while the policy is WhenUnderutilized, or
    ConsolidateAfter is unset while the policy is WhenEmpty. *)
Theorem Disruption_validate_rejects_iff (d : Disruption) :
  Disruption_validate d ≠ []
  <-> (∃ x, Duration (ExpireAfter d) = Some x ∧ x < 0)
      ∨ (∃ ca x, ConsolidateAfter d = Some ca ∧ Duration ca = Some x ∧ x < 0)
      ∨ (∃ ca x, ConsolidateAfter d = Some ca ∧ Duration ca = Some x
                 ∧ ConsolidationPolicy d = ConsolidationPolicyWhenUnderutilized)
      ∨ (ConsolidateAfter d = None
         ∧ ConsolidationPolicy d = ConsolidationPolicyWhenEmpty).
Proof.
  unfold Disruption_validate.
  destruct d as [ca policy [ea]]; simpl.
  destruct ea as [e|]; [destruct (Z.ltb_spec e 0) as [He|He]|].
  1: { split; [|done]. intros _. left. by exists e. }
  all: destruct ca as [[[x|]]|]; simpl.
  all: try destruct (Z.ltb_spec x 0) as [Hx|Hx].
  all: try case_bool_decide.
  all: unfold Also; simpl.
  all: (split; [intros Hne | intros Hex]); try done.
  all: try (right; left; by eexists _, _).
  all: try (right; right; left; by eexists _, _).
  all: try (right; right; right; done).
  all: destruct Hex as [(y & Hy & ?)|[(c & y & Hc & Hy & ?)
                        |[(c & y & Hc & Hy & ?)|[? ?]]]];
    simplify_eq; simpl in *; simplify_eq; try lia; done.
Qed.

(** C5, as stated, fails: with ConsolidateAfter set to Never and the
    policy WhenUnderutilized (the policy of the drift tests),
    ConsolidateAfter is set while the policy is not WhenEmpty, and
    [validate] accepts. *)
Lemma Disruption_validate_counterexample :
  let d := Examples.neverDisruption in
  is_Some (ConsolidateAfter d)
  ∧ ConsolidationPolicy d ≠ ConsolidationPolicyWhenEmpty
  ∧ Disruption_validate d = [].
Proof. split_and!; [by eexists|discriminate|reflexivity]. Qed.
End DisruptionValidateProperties.

(** ** Hash *)
Section HashProperties.
Import v1beta1.

(** C6: NodePools with equal templates have equal hashes, whatever their
    disruption policy, limits, weight, metadata and status; so two
    hashes differ only if the templates differ. *)
Theorem Hash_depends_on_template_only
        (hashstructure_Hash : NodeClaimTemplate -> N) (a b : NodePool) :
  Template (Spec a) = Template (Spec b) ->
  Hash hashstructure_Hash a = Hash hashstructure_Hash b.
Proof. unfold Hash. by intros ->. Qed.

(** Two pools that share a template and differ in name, weight and
    disruption policy, under a hash that counts requirements. *)
Lemma Hash_depends_on_template_only_witness :
  let h := fun t : NodeClaimTemplate =>
             N.of_nat (length (Requirements (template_Spec t))) in
  let a := Examples.nodePool "a" (Some 10) Examples.neverDisruption in
  let b := Examples.nodePool "b" None
             {| ConsolidateAfter := None;
                ConsolidationPolicy := ConsolidationPolicyWhenUnderutilized;
                ExpireAfter := {| Duration := Some 720 |} |} in
  a ≠ b ∧ Hash h a = Hash h b.
Proof.
  intros h a b. split; [discriminate|].
  apply (Hash_depends_on_template_only h a b). reflexivity.
Defined.
End HashProperties.

(** ** Template validation *)
Section TemplateValidationProperties.
Import v1beta1.

Variable NodePoolLabelKey : string.
Variable IsQualifiedName : string -> list string.
Variable IsValidLabelValue : string -> list string.
Variable IsRestrictedLabel : string -> option string.
Variable NodeClaimSpec_validate : NodeClaimSpec -> list FieldErrorLeaf.

Local Abbreviation validateLabel :=
  (validateLabel NodePoolLabelKey IsQualifiedName IsValidLabelValue
                 IsRestrictedLabel).
Local Abbreviation validateLabels :=
  (validateLabels NodePoolLabelKey IsQualifiedName IsValidLabelValue
                  IsRestrictedLabel).
Local Abbreviation validateRequirements :=
  (validateRequirementsNodePoolKeyDoesNotExist NodePoolLabelKey).
Local Abbreviation validate :=
  (NodeClaimTemplate_validate NodePoolLabelKey IsQualifiedName
     IsValidLabelValue IsRestrictedLabel NodeClaimSpec_validate).

(** Errors are only ever added. *)
Lemma fold_Also_extends {B} (f : B -> FieldErrorLeaf) (l : list B)
      (errs : list FieldErrorLeaf) :
  ∃ more, fold_left (fun errs b => Also errs [[f b]]) l errs = errs ++ more
          ∧ (l = [] -> more = []).
Proof.
  revert errs. induction l as [|b l IH]; intros errs; simpl.
  - exists []. by rewrite app_nil_r.
  - destruct (IH (Also errs [[f b]])) as (more & -> & _).
    exists ([f b] ++ more). unfold Also. simpl.
    rewrite <- app_assoc. split; [done|discriminate].
Qed.

Lemma validateLabel_extends errs kv :
  ∃ more, validateLabel errs kv = errs ++ more.
Proof.
  destruct kv as [key value]. unfold v1beta1.validateLabel.
  set (e1 := if bool_decide (key = NodePoolLabelKey) then _ else errs).
  assert (∃ m1, e1 = errs ++ m1) as [m1 ->].
  { unfold e1. case_bool_decide; [by eexists|exists []; by rewrite app_nil_r]. }
  destruct (fold_Also_extends (fun err => ErrInvalidKeyName key "labels" err)
              (IsQualifiedName key) (errs ++ m1)) as (m2 & -> & _).
  destruct (fold_Also_extends
              (fun err => ErrInvalidValue (value +:+ ", " +:+ err)
                                          ("labels[" +:+ key +:+ "]"))
              (IsValidLabelValue value) ((errs ++ m1) ++ m2)) as (m3 & -> & _).
  destruct (IsRestrictedLabel key); unfold Also; simpl;
    rewrite <- ?app_assoc; by eexists.
Qed.

Lemma validateLabel_nodepool_key errs value :
  validateLabel errs (NodePoolLabelKey, value) ≠ [].
Proof.
  unfold v1beta1.validateLabel. rewrite bool_decide_eq_true_2 by done.
  set (e1 := Also errs _).
  destruct (fold_Also_extends
              (fun err => ErrInvalidKeyName NodePoolLabelKey "labels" err)
              (IsQualifiedName NodePoolLabelKey) e1) as (m2 & -> & _).
  destruct (fold_Also_extends
              (fun err => ErrInvalidValue (value +:+ ", " +:+ err)
                            ("labels[" +:+ NodePoolLabelKey +:+ "]"))
              (IsValidLabelValue value) (e1 ++ m2)) as (m3 & -> & _).
  assert (e1 ≠ []) as Hne.
  { unfold e1, Also. simpl. by destruct errs. }
  destruct (IsRestrictedLabel NodePoolLabelKey); unfold Also;
    destruct e1; simpl; done.
Qed.

Lemma validateLabel_accepts errs key value :
  key ≠ NodePoolLabelKey -> IsQualifiedName key = [] ->
  IsValidLabelValue value = [] -> IsRestrictedLabel key = None ->
  validateLabel errs (key, value) = errs.
Proof.
  intros Hk Hq Hv Hr. unfold v1beta1.validateLabel.
  by rewrite bool_decide_eq_false_2, Hq, Hv, Hr.
Qed.

Lemma fold_validateLabel_nonempty (entries : list (string * string)) errs :
  errs ≠ [] -> fold_left validateLabel entries errs ≠ [].
Proof.
  revert errs. induction entries as [|kv rest IH]; intros errs Hne; [done|].
  simpl. apply IH. destruct (validateLabel_extends errs kv) as [more ->].
  by destruct errs.
Qed.

Lemma fold_validateLabel_rejects (entries : list (string * string)) errs value :
  (NodePoolLabelKey, value) ∈ entries ->
  fold_left validateLabel entries errs ≠ [].
Proof.
  revert errs. induction entries as [|kv rest IH]; intros errs Hin.
  - by apply elem_of_nil in Hin.
  - simpl. apply elem_of_cons in Hin as [<-|Hin]; [|by apply IH].
    apply fold_validateLabel_nonempty, validateLabel_nodepool_key.
Qed.

Lemma validateRequirements_from_extends i errs reqs :
  ∃ more, validateRequirements_from NodePoolLabelKey i errs reqs
          = errs ++ more.
Proof.
  revert i errs. induction reqs as [|r rest IH]; intros i errs; simpl.
  - exists []. by rewrite app_nil_r.
  - case_bool_decide; [|apply IH].
    destruct (IH (S i) (Also errs [[ErrInvalidArrayValue
                (Key r +:+ " is restricted") "requirements" i]]))
      as [more ->].
    unfold Also. simpl. rewrite <- app_assoc. by eexists.
Qed.

Lemma validateRequirements_from_rejects i errs reqs r :
  r ∈ reqs -> Key r = NodePoolLabelKey ->
  validateRequirements_from NodePoolLabelKey i errs reqs ≠ [].
Proof.
  revert i errs. induction reqs as [|r' rest IH]; intros i errs Hin Hk.
  - by apply elem_of_nil in Hin.
  - simpl. apply elem_of_cons in Hin as [<-|Hin].
    + rewrite bool_decide_eq_true_2 by done.
      destruct (validateRequirements_from_extends (S i)
                  (Also errs [[ErrInvalidArrayValue
                     (Key r +:+ " is restricted") "requirements" i]]) rest)
        as [more ->].
      unfold Also. simpl. by destruct errs.
    + by apply IH.
Qed.

Lemma validateRequirements_from_accepts i errs reqs :
  (∀ r, r ∈ reqs -> Key r ≠ NodePoolLabelKey) ->
  validateRequirements_from NodePoolLabelKey i errs reqs = errs.
Proof.
  revert i errs. induction reqs as [|r rest IH]; intros i errs Hall; [done|].
  simpl. rewrite bool_decide_eq_false_2.
  - apply IH. intros r' Hr'. apply Hall. by apply list_elem_of_further.
  - apply Hall, list_elem_of_here.
Qed.

(** C8, as amended.  A template whose labels contain the nodepool label
    key is rejected by [validateLabels], one whose requirements use the
    key is rejected by [validateRequirementsNodePoolKeyDoesNotExist],
    and either is rejected by the template's [validate].  A template
    that uses the key in neither place passes
    [validateRequirementsNodePoolKeyDoesNotExist], and passes
    [validateLabels] when each of its labels also passes the other three
    label checks. *)
Theorem template_nodepool_key_restricted (t : NodeClaimTemplate) :
  (is_Some (Labels (template_ObjectMeta t) !! NodePoolLabelKey) ->
     validateLabels t ≠ [] ∧ validate t ≠ [])
  ∧ ((∃ r, r ∈ Requirements (template_Spec t) ∧ Key r = NodePoolLabelKey) ->
       validateRequirements t ≠ [] ∧ validate t ≠ [])
  ∧ (Labels (template_ObjectMeta t) !! NodePoolLabelKey = None ->
     (∀ r, r ∈ Requirements (template_Spec t) -> Key r ≠ NodePoolLabelKey) ->
       validateRequirements t = []
       ∧ ((∀ key value, Labels (template_ObjectMeta t) !! key = Some value ->
             IsQualifiedName key = [] ∧ IsValidLabelValue value = []
             ∧ IsRestrictedLabel key = None) ->
          validateLabels t = [])).
Proof.
  assert (Hvia : ∀ prefix (fe : list FieldErrorLeaf),
             fe ≠ [] -> ViaField prefix fe ≠ []).
  { intros prefix [|e fe]; done. }
  split_and!.
  - intros [value Hl].
    assert (validateLabels t ≠ []) as Hne.
    { unfold v1beta1.validateLabels.
      apply fold_validateLabel_rejects with value.
      by apply elem_of_map_to_list. }
    split; [done|]. unfold NodeClaimTemplate_validate, Also.
    specialize (Hvia "metadata" _ Hne). simpl.
    destruct (ViaField "metadata" (validateLabels t)); [done|].
    case_bool_decide; simpl; done.
  - intros (r & Hin & Hk).
    assert (validateRequirements t ≠ []) as Hne.
    { by eapply validateRequirements_from_rejects. }
    split; [done|]. unfold NodeClaimTemplate_validate, Also.
    specialize (Hvia "spec.requirements" _ Hne). simpl.
    destruct (ViaField "spec.requirements" (validateRequirements t));
      [done|].
    intros Heq. apply app_eq_nil in Heq as [_ Heq].
    apply app_eq_nil in Heq as [_ Heq]. done.
  - intros Hnone Hreqs. split.
    + by apply validateRequirements_from_accepts.
    + intros Hok. unfold v1beta1.validateLabels.
      assert (H : ∀ entries,
                 (∀ k v, (k, v) ∈ entries ->
                         Labels (template_ObjectMeta t) !! k = Some v) ->
                 fold_left validateLabel entries [] = []).
      { induction entries as [|[k v] rest IH]; intros Hin; [done|].
        cbn [fold_left]. rewrite validateLabel_accepts.
        - apply IH. intros k' v' H'. apply Hin. by apply list_elem_of_further.
        - intros ->. specialize (Hin _ _ (list_elem_of_here _ _)). congruence.
        - eapply Hok, Hin, list_elem_of_here.
        - eapply Hok, Hin, list_elem_of_here.
        - eapply Hok, Hin, list_elem_of_here. }
      apply H. intros k v. apply elem_of_map_to_list.
Qed.
End TemplateValidationProperties.

Section TemplateValidationExamples.
Import v1beta1.

Local Abbreviation key := Examples.NodePoolLabelKey.
Local Abbreviation noRestriction := (fun _ : string => @None string).
Local Abbreviation specAccepts :=
  (fun _ : NodeClaimSpec => @nil FieldErrorLeaf).

(** The theorem at a template that uses the nodepool key in a label and
    in a requirement, and at a template with one ordinary label; the
    k8s validators are the ones of the [validation] module. *)
Lemma template_nodepool_key_restricted_witness :
  (validateLabels key validation.IsQualifiedName
                  validation.IsValidLabelValue noRestriction
                  Examples.restrictedTemplate ≠ []
   ∧ validateRequirementsNodePoolKeyDoesNotExist key
       Examples.restrictedTemplate ≠ []
   ∧ NodeClaimTemplate_validate key validation.IsQualifiedName
       validation.IsValidLabelValue noRestriction specAccepts
       Examples.restrictedTemplate ≠ [])
  ∧ (validateRequirementsNodePoolKeyDoesNotExist key
       Examples.plainTemplate = []
     ∧ validateLabels key validation.IsQualifiedName
                      validation.IsValidLabelValue noRestriction
                      Examples.plainTemplate = []).
Proof.
  pose proof (template_nodepool_key_restricted key validation.IsQualifiedName
                validation.IsValidLabelValue noRestriction specAccepts
                Examples.restrictedTemplate) as (Hlabels & Hreqs & _).
  pose proof (template_nodepool_key_restricted key validation.IsQualifiedName
                validation.IsValidLabelValue noRestriction specAccepts
                Examples.plainTemplate) as (_ & _ & Hgood).
  split.
  - assert (is_Some (Labels (template_ObjectMeta Examples.restrictedTemplate)
                     !! key)) as Hs by (vm_compute; by eexists).
    destruct (Hlabels Hs) as [Hl Hv].
    split_and!; [exact Hl| |exact Hv].
    apply Hreqs. eexists. split; [apply list_elem_of_here|reflexivity].
  - assert (Labels (template_ObjectMeta Examples.plainTemplate) !! key = None)
      as Hn by (by vm_compute).
    assert (∀ r, r ∈ Requirements (template_Spec Examples.plainTemplate) ->
                 Key r ≠ key) as Hr.
    { intros r Hin. by apply elem_of_nil in Hin. }
    destruct (Hgood Hn Hr) as [Hreq Hlab].
    split; [exact Hreq|]. apply Hlab. intros k v Hkv.
    cbn [Examples.plainTemplate Examples.template Labels template_ObjectMeta]
      in Hkv.
    apply lookup_singleton_Some in Hkv as [<- <-].
    clear. vm_compute. auto.
Defined.

(** C8, as stated, fails: a template whose only label has the key
    "my label" uses the nodepool key neither in its labels nor in its
    requirements, and [validateLabels] rejects it, since the key is
    not a qualified name. *)
Lemma validateLabels_counterexample :
  Labels (template_ObjectMeta Examples.badLabelTemplate) !! key = None
  ∧ (∀ r, r ∈ Requirements (template_Spec Examples.badLabelTemplate) ->
          Key r ≠ key)
  ∧ validateLabels key validation.IsQualifiedName
                   validation.IsValidLabelValue noRestriction
                   Examples.badLabelTemplate
    = [ ErrInvalidKeyName "my label" "labels"
          ("name part " +:+ validation.qualifiedNameErrMsg) ].
Proof.
  split_and!.
  - by vm_compute.
  - intros r Hin. by apply elem_of_nil in Hin.
  - by vm_compute.
Qed.
End TemplateValidationExamples.

(** ** HealthProbe *)
Section HealthProbeProperties.
Import webhooks.

(** C9: the checker fails exactly when the GET fails at the connection
    level or answers with a status code that is at least 500 or is 404;
    every other status code is healthy. *)
Theorem HealthProbe_fails_iff (http_Get : string -> GetResult)
        (Request : Type) (WebhookPort : Z) (req : Request) :
  HealthProbe http_Get Request WebhookPort req ≠ None
  <-> (∃ err, http_Get ("http://localhost:" +:+ fmt_d WebhookPort)
              = GetError err)
      ∨ (∃ res, http_Get ("http://localhost:" +:+ fmt_d WebhookPort)
                = GetResponse res
                ∧ (500 <= StatusCode res ∨ StatusCode res = 404)).
Proof.
  unfold HealthProbe.
  destruct (http_Get _) as [err|res].
  - split; [|done]. intros _. left. by exists err.
  - destruct (Z.geb_spec (StatusCode res) 500) as [Hge|Hlt]; simpl.
    + split; [|done]. intros _. right. exists res. split; [done|]. lia.
    + destruct (Z.eqb_spec (StatusCode res) 404) as [Heq|Hne].
      * split; [|done]. intros _. right. exists res. split; [done|]. lia.
      * split; [done|].
        intros [[err Herr]|(res' & Hres & Hcode)]; [done|].
        injection Hres as <-. lia.
Qed.
End HealthProbeProperties.

(** ** The pod metrics controller *)
Section PodControllerProperties.
Import pod.

(** C10: when the pod of the request no longer exists, [Reconcile]
    removes the entry of that pod from the metric store and from the
    pending pods, leaves every other entry as it is, and returns the
    zero result (no requeue) and no error; on every other failure of
    the Get it returns that error and leaves the controller as it is. *)
Theorem Reconcile_pod_gone (Get_Pod : NamespacedName -> error + Pod)
        (Get_Node : string -> error + Node)
        (c : Controller) (req : NamespacedName) (err : error) :
  Get_Pod req = inl err ->
  let r := Reconcile Get_Pod Get_Node c req in
  let c' := r.1.1 in
  let key := NamespacedName_String req in
  r.1.2 = Result_zero
  ∧ (IsNotFound err = true ->
       r.2 = None
       ∧ metricStore c' !! key = None
       ∧ (key ∉ pendingPods c')
       ∧ (∀ k, k ≠ key -> metricStore c' !! k = metricStore c !! k)
       ∧ (∀ k, k ≠ key -> (k ∈ pendingPods c' <-> k ∈ pendingPods c))
       ∧ podStartupTimeSummary c' = podStartupTimeSummary c)
  ∧ (IsNotFound err = false -> r.2 = Some err ∧ c' = c).
Proof.
  intros Hget. unfold Reconcile. rewrite Hget. simpl.
  split; [done|]. destruct (IsNotFound err) eqn:Hnf; simpl.
  - split; [|done]. intros _. unfold Store_Delete. split_and!.
    + done.
    + apply lookup_delete_eq.
    + rewrite elem_of_difference, elem_of_singleton. tauto.
    + intros k Hk. by apply lookup_delete_ne.
    + intros k Hk. rewrite elem_of_difference, elem_of_singleton. tauto.
    + done.
  - split; [done|]. intros _. done.
Qed.

(** The theorem at a controller that tracks the pod "default/web", for a
    client that answers not-found. *)
Lemma Reconcile_pod_gone_witness :
  let r := Reconcile Examples.Get_gone Examples.Get_no_node
                     Examples.controller Examples.request in
  Examples.Get_gone Examples.request = inl (NotFoundError "not found")
  ∧ r.1.2 = Result_zero ∧ r.2 = None
  ∧ metricStore r.1.1 !! "default/web" = None
  ∧ "default/web" ∉ pendingPods r.1.1.
Proof.
  intros r. split; [reflexivity|].
  destruct (Reconcile_pod_gone Examples.Get_gone Examples.Get_no_node
              Examples.controller Examples.request
              (NotFoundError "not found") eq_refl) as (Hres & Hgone & _).
  destruct (Hgone eq_refl) as (He & Hstore & Hpending & _).
  split_and!; [exact Hres|exact He|exact Hstore|exact Hpending].
Defined.
End PodControllerProperties.

(** ** The disruption engine *)
Section EngineProperties.
Import disruption.

Variable opts : test.options_Options.
Variable Scheduler :
  list Pod -> list StateNode -> list v1beta1.NodePool
  -> option (list NewNodeClaim).
Variable minSavings : Z.

Local Abbreviation getCandidates := (getCandidates opts).
Local Abbreviation computeCommand := (computeCommand opts Scheduler minSavings).
Local Abbreviation Reconcile := (Reconcile opts Scheduler minSavings).

Lemma getCandidates_elem m c q cand :
  cand ∈ getCandidates m c q ->
  nodeClaims c !! cand.1 = Some cand.2
  ∧ eligible c q cand = true
  ∧ shouldDisrupt opts m c cand.2 = true.
Proof.
  unfold disruption.getCandidates. intros Hin.
  apply list_elem_of_In, filter_In in Hin as [Hall Hb].
  apply andb_true_iff in Hb as [He Hs].
  apply list_elem_of_In in Hall. destruct cand as [name nc].
  apply elem_of_map_to_list in Hall. auto.
Qed.

Lemma consolidateTo_sound c cands cmd :
  consolidateTo Scheduler minSavings c cands = Some cmd ->
  cmd_reason cmd = Consolidation ∧ cmd_candidates cmd = cands.*1.
Proof.
  unfold consolidateTo.
  destruct (simulate Scheduler c cands) as [[|new [|? ?]]|]; try done.
  - by intros [= <-].
  - destruct (_ <? _); [|done]. by intros [= <-].
Qed.

Lemma firstConsolidatable_sound c cands cmd :
  firstConsolidatable Scheduler minSavings c cands = Some cmd ->
  cmd_reason cmd = Consolidation
  ∧ ∃ cand, cand ∈ cands ∧ cmd_candidates cmd = [cand.1].
Proof.
  induction cands as [|cand rest IH]; simpl; [done|].
  destruct (consolidateTo Scheduler minSavings c [cand]) as [cmd'|] eqn:Hc.
  - intros [= <-]. apply consolidateTo_sound in Hc as [Hr Hn].
    split; [done|]. exists cand. split; [apply list_elem_of_here|done].
  - intros H. destruct (IH H) as (Hr & cand' & Hin & Hn).
    split; [done|]. exists cand'. split; [by apply list_elem_of_further|done].
Qed.

Lemma firstReplaceable_sound m c cands cmd :
  firstReplaceable Scheduler m c cands = Some cmd ->
  cmd_reason cmd = m
  ∧ ∃ cand, cand ∈ cands ∧ cmd_candidates cmd = [cand.1].
Proof.
  induction cands as [|cand rest IH]; simpl; [done|].
  destruct (simulate Scheduler c [cand]) as [[|new news]|].
  - intros [= <-]. split; [done|].
    exists cand. split; [apply list_elem_of_here|done].
  - intros [= <-]. split; [done|].
    exists cand. split; [apply list_elem_of_here|done].
  - intros H. destruct (IH H) as (Hr & cand' & Hin & Hn).
    split; [done|]. exists cand'. split; [by apply list_elem_of_further|done].
Qed.

(** A command of a method is tagged with the method and names candidates
    of the method only. *)
Lemma computeCommand_sound m c q cmd :
  computeCommand m c q = Some cmd ->
  cmd_reason cmd = m
  ∧ ∀ name, name ∈ cmd_candidates cmd ->
            ∃ nc, (name, nc) ∈ getCandidates m c q.
Proof.
  unfold disruption.computeCommand.
  set (cands := merge_sort _ _).
  assert (Hsub : ∀ cand, cand ∈ cands -> cand ∈ getCandidates m c q).
  { intros cand. unfold cands. by rewrite merge_sort_Permutation. }
  assert (Hnames : ∀ (l : list (string * NodeClaim)) name,
             (∀ cand, cand ∈ l -> cand ∈ cands) -> name ∈ l.*1 ->
             ∃ nc, (name, nc) ∈ getCandidates m c q).
  { intros l name Hl Hin. apply list_elem_of_fmap in Hin as ([n nc] & -> & Hin).
    exists nc. by apply Hsub, Hl. }
  assert (Hone : ∀ cand name, cand ∈ cands -> name ∈ [cand.1] ->
             ∃ nc, (name, nc) ∈ getCandidates m c q).
  { intros [n nc] name Hin Hn. apply list_elem_of_singleton in Hn as ->.
    exists nc. by apply Hsub. }
  assert (Hother :
            match List.filter (fun cand => isEmpty c cand.2) cands with
            | [] => firstReplaceable Scheduler m c cands
            | empties => Some (Delete m empties.*1)
            end = Some cmd ->
            cmd_reason cmd = m
            ∧ ∀ name, name ∈ cmd_candidates cmd ->
                      ∃ nc, (name, nc) ∈ getCandidates m c q).
  { destruct (List.filter _ cands) as [|e es] eqn:Hf.
    - intros H. apply firstReplaceable_sound in H as (Hr & cand & Hin & Hn).
      split; [done|]. intros name. rewrite Hn. by apply Hone.
    - intros [= <-]. split; [done|]. intros name Hname.
      apply (Hnames (e :: es) name); [|exact Hname].
      intros cand Hin. rewrite <- Hf in Hin.
      by apply list_elem_of_In, filter_In in Hin as [Hin%list_elem_of_In _]. }
  destruct m; try exact Hother.
  destruct (bool_decide (2 <= length cands)%nat).
  - destruct (consolidateTo Scheduler minSavings c cands) as [cmd'|] eqn:Hc.
    + intros [= <-]. apply consolidateTo_sound in Hc as [Hr Hn].
      split; [done|]. intros name. rewrite Hn. by apply Hnames.
    + intros H. apply firstConsolidatable_sound in H as (Hr & cand & Hin & Hn).
      split; [done|]. intros name. rewrite Hn. by apply Hone.
  - intros H. apply firstConsolidatable_sound in H as (Hr & cand & Hin & Hn).
    split; [done|]. intros name. rewrite Hn. by apply Hone.
Qed.

(** Every command in the queue after a reconcile was there before or was
    computed by one of the methods. *)
Lemma Reconcile_issued c q cmd :
  cmd ∈ Reconcile c q ->
  cmd ∈ q ∨ ∃ m q', computeCommand m c q' = Some cmd.
Proof.
  unfold disruption.Reconcile. destruct (synced c); [|by left].
  generalize [Expiration; Drift; Emptiness; Consolidation].
  intros ms. revert q. induction ms as [|m ms IH]; intros q; simpl; [by left|].
  intros Hin. apply IH in Hin as [Hin|Hex]; [|by right].
  unfold disrupt in Hin.
  destruct (disruption.computeCommand opts Scheduler minSavings m c q)
    as [cmd'|] eqn:Hc; [|by left].
  apply elem_of_app in Hin as [Hin|Hin]; [by left|].
  apply list_elem_of_singleton in Hin as ->. right. by exists m, q.
Qed.

(** A node-claim whose node is protected is not eligible. *)
Lemma protected_not_eligible c q name nc nd :
  matchingNode c nc = Some nd -> doNotDisrupt c nd ->
  eligible c q (name, nc) = false.
Proof.
  intros Hm Hp. unfold eligible. rewrite Hm.
  destruct Hp as [Hann|(p & Hin & Hname & Hann)].
  - unfold hasDoNotDisrupt at 2. rewrite (bool_decide_eq_true_2 _ Hann).
    by rewrite !andb_false_r.
  - assert (existsb (fun p => hasDoNotDisrupt (pod_Annotations p))
                    (podsOn c nd) = true) as ->.
    { apply existsb_exists. exists p. split.
      - unfold podsOn. apply filter_In. split; [by apply list_elem_of_In|].
        by apply bool_decide_eq_true_2.
      - unfold hasDoNotDisrupt. by apply bool_decide_eq_true_2. }
    by rewrite !andb_false_r.
Qed.
End EngineProperties.

(** ** The disruption queue: what a command leaves alone *)
Section KeptProperties.
Import disruption.

Variable CloudProvider_Create : NewNodeClaim -> LaunchOutcome.
Variables (name : string) (nc : NodeClaim) (pid : string) (nd : Node).
Variable N : list string.
Hypothesis name_not_in_N : name ∉ N.

Local Abbreviation Kept := (Kept name nc pid nd N).

Lemma Kept_fold_left (P : string -> Prop) (f : Cluster -> string -> Cluster)
      (names : list string) (c : Cluster) :
  (∀ c n, P n -> Kept c -> Kept (f c n)) ->
  (∀ n, n ∈ names -> P n) ->
  Kept c -> Kept (fold_left f names c).
Proof.
  intros Hf. revert c. induction names as [|n names IH]; intros c HP Hk; [done|].
  simpl. apply IH.
  - intros n' Hn'. apply HP. by apply list_elem_of_further.
  - apply Hf; [|done]. apply HP, list_elem_of_here.
Qed.

Lemma Kept_set_markedForDeletion v c :
  Kept c -> Kept (set_markedForDeletion v c).
Proof. intros H. exact H. Qed.

Lemma Kept_alterNode f c n : n ∈ N -> Kept c -> Kept (alterNode f c n).
Proof.
  intros Hn (Hc & Hnd & Hinv). unfold alterNode.
  destruct (nodeClaims c !! n) as [nc'|] eqn:Hl; simpl; [|done].
  destruct (nc_ProviderID nc') as [pid'|] eqn:Hp; [|done].
  split_and!; simpl; [done| |done].
  rewrite lookup_alter_ne; [done|].
  intros ->. by eapply Hinv.
Qed.

Lemma Kept_createNodeClaim c spec :
  Kept c -> Kept (createNodeClaim c spec).1 ∧ (createNodeClaim c spec).2 ≠ name.
Proof.
  intros (Hc & Hnd & Hinv). unfold createNodeClaim. simpl.
  pose proof (is_fresh (dom (nodeClaims c))) as Hfresh.
  assert (fresh (dom (nodeClaims c)) ≠ name) as Hne.
  { intros Heq. apply Hfresh. rewrite Heq. apply elem_of_dom. by eexists. }
  split; [|done]. split_and!; simpl.
  - by rewrite lookup_insert_ne.
  - done.
  - intros n nc' Hn. rewrite lookup_insert. case_decide.
    + by intros [= <-].
    + by apply Hinv.
Qed.

Lemma Kept_createNodeClaims c specs :
  Kept c ->
  Kept (createNodeClaims c specs).1 ∧ name ∉ (createNodeClaims c specs).2.
Proof.
  revert c. induction specs as [|spec rest IH]; intros c Hk;
    cbn [createNodeClaims].
  - split; [done|]. apply not_elem_of_nil.
  - destruct (Kept_createNodeClaim c spec Hk) as [Hk1 Hne].
    destruct (createNodeClaim c spec) as [c1 x]. cbn [fst snd] in Hk1, Hne.
    destruct (IH c1 Hk1) as [Hk2 Hnin].
    destruct (createNodeClaims c1 rest) as [c2 names]. cbn [fst snd] in *.
    split; [done|]. apply not_elem_of_cons. by split.
Qed.

Lemma Kept_initializeNodeClaim c x :
  x ≠ name -> Kept c -> Kept (initializeNodeClaim c x).
Proof.
  intros Hx (Hc & Hnd & Hinv). unfold initializeNodeClaim.
  destruct (nodeClaims c !! x) as [ncx|] eqn:Hl; [|done].
  pose proof (is_fresh (dom (nodes c))) as Hfresh.
  assert (fresh (dom (nodes c)) ≠ pid) as Hne.
  { intros Heq. apply Hfresh. rewrite Heq. apply elem_of_dom. by eexists. }
  split_and!; simpl.
  - by rewrite lookup_insert_ne.
  - by rewrite lookup_insert_ne.
  - intros n nc' Hn. rewrite lookup_insert. case_decide.
    + intros [= <-]. simpl. congruence.
    + by apply Hinv.
Qed.

Lemma Kept_removeNodeClaim c x :
  x ≠ name -> Kept c -> Kept (removeNodeClaim c x).
Proof.
  intros Hx (Hc & Hnd & Hinv). unfold removeNodeClaim. split_and!; simpl.
  - by rewrite lookup_delete_ne.
  - done.
  - intros n nc' Hn Hl. apply lookup_delete_Some in Hl as [_ Hl].
    by eapply Hinv.
Qed.

Lemma Kept_deleteNodeClaim c n : n ∈ N -> Kept c -> Kept (deleteNodeClaim c n).
Proof.
  intros Hn Hk. unfold deleteNodeClaim.
  destruct (nodeClaims c !! n) as [nc'|] eqn:Hl; [|done].
  apply Kept_set_markedForDeletion, Kept_removeNodeClaim.
  { intros ->. done. }
  destruct Hk as (Hc & Hnd & Hinv).
  destruct (nc_ProviderID nc') as [pid'|] eqn:Hp; [|done].
  destruct (nodes c !! pid') as [nd'|] eqn:Hnd'; [|done].
  split_and!; simpl; [done| |done].
  rewrite lookup_delete_ne; [done|].
  intros ->. by eapply Hinv.
Qed.

(** A command that names node-claims of [N] only keeps the node-claim and
    its node. *)
Lemma Kept_execute c cmd :
  (∀ n, n ∈ cmd_candidates cmd -> n ∈ N) ->
  Kept c -> Kept (execute CloudProvider_Create c cmd).
Proof.
  intros Hsub Hk. destruct cmd as [r old|r old new]; simpl in *.
  - apply (Kept_fold_left (fun n => n ∈ N)); [apply Kept_deleteNodeClaim|done|].
    by apply Kept_set_markedForDeletion.
  - unfold attempt.
    assert (Kept (cordon old (MarkForDeletion old c))) as Hk1.
    { apply (Kept_fold_left (fun n => n ∈ N)); [apply Kept_alterNode|done|].
      by apply Kept_set_markedForDeletion. }
    destruct (Kept_createNodeClaims _ new Hk1) as [Hk2 Hnin].
    destruct (createNodeClaims _ new) as [c2 created]. simpl in Hk2, Hnin.
    assert (∀ x, x ∈ created -> x ≠ name) as Hcreated.
    { intros x Hx ->. done. }
    destruct (allInitialized CloudProvider_Create new).
    + apply (Kept_fold_left (fun n => n ∈ N)); [apply Kept_deleteNodeClaim|done|].
      by apply (Kept_fold_left (fun x => x ≠ name));
        [apply Kept_initializeNodeClaim| |].
    + apply (Kept_fold_left (fun n => n ∈ N)); [apply Kept_alterNode|done|].
      apply Kept_set_markedForDeletion.
      by apply (Kept_fold_left (fun x => x ≠ name));
        [apply Kept_removeNodeClaim| |].
Qed.

Lemma Kept_drain c q :
  (∀ cmd n, cmd ∈ q -> n ∈ cmd_candidates cmd -> n ∈ N) ->
  Kept c -> Kept (drain CloudProvider_Create c q).
Proof.
  revert c. induction q as [|cmd rest IH]; intros c Hsub Hk; simpl; [done|].
  apply IH.
  - intros cmd' n Hin. apply Hsub. by apply list_elem_of_further.
  - apply Kept_execute; [|done]. intros n. apply Hsub, list_elem_of_here.
Qed.
End KeptProperties.

(** ** A disruption pass *)
Section PassProperties.
Import disruption.

Variable opts : test.options_Options.
Variable Scheduler :
  list Pod -> list StateNode -> list v1beta1.NodePool
  -> option (list NewNodeClaim).
Variable minSavings : Z.
Variable CloudProvider_Create : NewNodeClaim -> LaunchOutcome.

Local Abbreviation getCandidates := (getCandidates opts).
Local Abbreviation computeCommand := (computeCommand opts Scheduler minSavings).
Local Abbreviation Reconcile := (Reconcile opts Scheduler minSavings).
Local Abbreviation pass :=
  (pass opts Scheduler minSavings CloudProvider_Create).

(** The node-claims named by the commands a reconcile issues were
    eligible candidates. *)
Lemma Reconcile_names_eligible c cmd n :
  cmd ∈ Reconcile c [] -> n ∈ cmd_candidates cmd ->
  ∃ nc' q', nodeClaims c !! n = Some nc' ∧ eligible c q' (n, nc') = true.
Proof.
  intros Hin Hn.
  apply Reconcile_issued in Hin as [Hin|(m & q' & Hc)].
  { by apply elem_of_nil in Hin. }
  apply computeCommand_sound in Hc as [_ Hc].
  destruct (Hc n Hn) as [nc' Hcand].
  apply getCandidates_elem in Hcand as (Hl & He & _).
  by exists nc', q'.
Qed.

Lemma filter_all_false {A} (f : A -> bool) (l : list A) :
  (∀ x, x ∈ l -> f x = false) -> List.filter f l = [].
Proof.
  induction l as [|x l IH]; intros Hall; simpl; [done|].
  rewrite (Hall x (list_elem_of_here _ _)). apply IH.
  intros y Hy. apply Hall. by apply list_elem_of_further.
Qed.

Lemma getCandidates_nil m c q :
  (∀ n nc', nodeClaims c !! n = Some nc' ->
            eligible c q (n, nc') && shouldDisrupt opts m c nc' = false) ->
  getCandidates m c q = [].
Proof.
  intros Hall. unfold disruption.getCandidates. apply filter_all_false.
  intros [n nc'] Hin. apply Hall. by apply elem_of_map_to_list.
Qed.

Lemma computeCommand_no_candidates m c q :
  getCandidates m c q = [] -> computeCommand m c q = None.
Proof.
  intros Hnil. unfold disruption.computeCommand. rewrite Hnil.
  by destruct m.
Qed.

Lemma Reconcile_nothing c q :
  (∀ m q', computeCommand m c q' = None) -> Reconcile c q = q.
Proof.
  intros Hnone. unfold disruption.Reconcile.
  destruct (synced c); [|done]. cbn [fold_left]. unfold disrupt.
  by rewrite !Hnone.
Qed.

(** C1, as amended: a node that carries the do-not-disrupt annotation, or
    hosts a pod that carries it, is never selected by a disruption pass:
    no command is issued for its node-claim, and after the pass the
    node-claim and the node are in the cluster as they were; when every
    node of the cluster is protected in this way, the pass leaves the
    whole cluster as it was. *)
Theorem do_not_disrupt_is_kept (c : Cluster) (name : string) (nc : NodeClaim)
        (pid : string) (nd : Node) :
  nodeClaims c !! name = Some nc ->
  nc_ProviderID nc = Some pid ->
  nodes c !! pid = Some nd ->
  doNotDisrupt c nd ->
  (∀ cmd, cmd ∈ Reconcile c [] -> name ∉ cmd_candidates cmd)
  ∧ nodeClaims (pass c) !! name = Some nc
  ∧ nodes (pass c) !! pid = Some nd
  ∧ ((∀ n' nc' nd', nodeClaims c !! n' = Some nc' ->
                    matchingNode c nc' = Some nd' -> doNotDisrupt c nd') ->
     pass c = c).
Proof.
  intros Hclaim Hpid Hnode Hprot.
  assert (Hmatch : ∀ nc', nc_ProviderID nc' = Some pid ->
             matchingNode c nc' = Some nd).
  { intros nc' Hp. unfold matchingNode. by rewrite Hp. }
  assert (Hnot : ∀ cmd, cmd ∈ Reconcile c [] -> name ∉ cmd_candidates cmd).
  { intros cmd Hin Hn.
    destruct (Reconcile_names_eligible c cmd name Hin Hn)
      as (nc' & q' & Hl & He).
    rewrite Hclaim in Hl. injection Hl as <-.
    rewrite (protected_not_eligible c q' name nc nd) in He; [done| |done].
    by apply Hmatch. }
  set (N := flat_map cmd_candidates (Reconcile c [])).
  assert (Hk : Kept name nc pid nd N (pass c)).
  { apply Kept_drain.
    - intros Hin. apply list_elem_of_In, in_flat_map in Hin as (cmd & Hc & Hn).
      apply list_elem_of_In in Hc, Hn. by eapply Hnot.
    - intros cmd n Hc Hn. apply list_elem_of_In, in_flat_map.
      exists cmd. by split; apply list_elem_of_In.
    - split_and!; [done|done|].
      intros n nc' Hn Hl Hp.
      apply list_elem_of_In, in_flat_map in Hn as (cmd & Hc & Hn).
      apply list_elem_of_In in Hc, Hn.
      destruct (Reconcile_names_eligible c cmd n Hc Hn)
        as (nc'' & q' & Hl' & He).
      rewrite Hl in Hl'. injection Hl' as <-.
      rewrite (protected_not_eligible c q' n nc' nd) in He; [done| |done].
      by apply Hmatch. }
  destruct Hk as (Hk1 & Hk2 & _).
  split_and!; [done|done|done|].
  intros Hall. unfold disruption.pass.
  rewrite Reconcile_nothing; [done|].
  intros m q'. apply computeCommand_no_candidates, getCandidates_nil.
  intros n' nc' Hl. apply andb_false_intro1.
  destruct (matchingNode c nc') as [nd'|] eqn:Hm.
  - eapply protected_not_eligible; [done|]. by eapply Hall.
  - unfold eligible. by rewrite Hm.
Qed.

(** C7: with the Drift feature gate disabled the drift method issues no
    command, whatever the Drifted conditions are, so that every command
    a reconcile adds to the queue comes from another method; and in a
    cluster whose pools have ExpireAfter and ConsolidateAfter set to
    Never, as in the test, a pass deletes and creates nothing. *)
Theorem drift_gate_disabled (c : Cluster) (q : list Command) :
  test.opt_FeatureGates_Drift opts = false ->
  computeCommand Drift c q = None
  ∧ (∀ cmd, cmd ∈ Reconcile c q -> cmd ∈ q ∨ cmd_reason cmd ≠ Drift)
  ∧ ((∀ pn p, nodePools c !! pn = Some p ->
        v1beta1.Duration
          (v1beta1.ExpireAfter (v1beta1.spec_Disruption (v1beta1.Spec p)))
        = None
        ∧ consolidateNever (v1beta1.spec_Disruption (v1beta1.Spec p)) = true) ->
     pass c = c).
Proof.
  intros Hgate.
  assert (Hdrift : ∀ q', computeCommand Drift c q' = None).
  { intros q'. apply computeCommand_no_candidates, getCandidates_nil.
    intros n nc' _. apply andb_false_intro2. simpl. by rewrite Hgate. }
  split_and!; [done| |].
  - intros cmd Hin. apply Reconcile_issued in Hin as [Hin|(m & q' & Hc)];
      [by left|right].
    destruct (computeCommand_sound opts Scheduler minSavings m c q' cmd Hc)
      as [-> _].
    intros ->. by rewrite Hdrift in Hc.
  - intros Hnever. unfold disruption.pass.
    rewrite Reconcile_nothing; [done|].
    intros m q'. apply computeCommand_no_candidates, getCandidates_nil.
    intros n nc' _. apply andb_false_intro2.
    destruct m; simpl.
    + unfold poolDisruption.
      destruct (nodePools c !! nc_NodePool nc') as [p|] eqn:Hp; [|done].
      simpl. by destruct (Hnever _ _ Hp) as [-> _].
    + by rewrite Hgate.
    + unfold poolDisruption.
      destruct (nodePools c !! nc_NodePool nc') as [p|] eqn:Hp; [|done].
      simpl. destruct (Hnever _ _ Hp) as [_ Hn].
      unfold consolidateNever in Hn. unfold consolidateAfter.
      destruct (v1beta1.ConsolidateAfter _) as [ca|]; [|done].
      apply bool_decide_eq_true_1 in Hn. rewrite Hn.
      by rewrite andb_false_r.
    + unfold poolDisruption.
      destruct (nodePools c !! nc_NodePool nc') as [p|] eqn:Hp; [|done].
      simpl. destruct (Hnever _ _ Hp) as [_ ->].
      by rewrite andb_false_r.
Qed.
End PassProperties.

Section PassExamples.
Import disruption.

Local Abbreviation protectedNode :=
  (Examples.node "node-a" {[ DoNotDisruptAnnotationKey := "true" ]}).

Lemma protectedNode_doNotDisrupt :
  doNotDisrupt Examples.protectedCluster protectedNode.
Proof. left. vm_compute. eexists. reflexivity. Qed.

(** The theorem at the cluster of two drifted node-claims of which the
    first has an annotated node, with the Drift gate enabled. *)
Lemma do_not_disrupt_is_kept_witness :
  doNotDisrupt Examples.protectedCluster protectedNode
  ∧ nodeClaims (pass Examples.driftEnabled Examples.oneNewNode 0
                     Examples.launchAll Examples.protectedCluster)
    !! "claim-a" = Some (Examples.driftedClaim "provider-a" 5)
  ∧ nodes (pass Examples.driftEnabled Examples.oneNewNode 0
                Examples.launchAll Examples.protectedCluster)
    !! "provider-a" = Some protectedNode.
Proof.
  split; [exact protectedNode_doNotDisrupt|].
  assert (nodeClaims Examples.protectedCluster !! "claim-a"
          = Some (Examples.driftedClaim "provider-a" 5)) as Hclaim.
  { vm_compute. reflexivity. }
  assert (nodes Examples.protectedCluster !! "provider-a"
          = Some protectedNode) as Hnode.
  { vm_compute. reflexivity. }
  pose proof (do_not_disrupt_is_kept Examples.driftEnabled Examples.oneNewNode
                0 Examples.launchAll Examples.protectedCluster "claim-a"
                (Examples.driftedClaim "provider-a" 5) "provider-a"
                protectedNode Hclaim eq_refl Hnode protectedNode_doNotDisrupt)
    as (_ & Hc & Hn & _).
  split; [exact Hc|exact Hn].
Defined.

(** C1, as stated, fails: in that cluster the first node carries the
    do-not-disrupt annotation, and the pass replaces the other drifted
    node: a new node-claim is created and the node-claim and the node of
    the other node are deleted, so the set of node-claims and nodes is
    not unchanged by the pass. *)
Lemma pass_changes_cluster_counterexample :
  let c := Examples.protectedCluster in
  let c' := pass Examples.driftEnabled Examples.oneNewNode 0
                 Examples.launchAll c in
  nodeClaims c !! "claim-a" = Some (Examples.driftedClaim "provider-a" 5)
  ∧ nodes c !! "provider-a" = Some protectedNode
  ∧ doNotDisrupt c protectedNode
  ∧ Reconcile Examples.driftEnabled Examples.oneNewNode 0 c []
    = [Replace Drift ["claim-b"] [Examples.replacement]]
  ∧ dom (nodeClaims c') ≠ dom (nodeClaims c)
  ∧ dom (nodes c') ≠ dom (nodes c).
Proof.
  intros c c'. split_and!.
  - vm_compute. reflexivity.
  - vm_compute. reflexivity.
  - exact protectedNode_doNotDisrupt.
  - vm_compute. reflexivity.
  - intros Heq.
    assert ("claim-b" ∈ dom (nodeClaims c)) as Hin.
    { apply elem_of_dom. vm_compute. eexists. reflexivity. }
    rewrite <- Heq in Hin. apply elem_of_dom in Hin as [x Hx].
    vm_compute in Hx. discriminate.
  - intros Heq.
    assert ("provider-b" ∈ dom (nodes c)) as Hin.
    { apply elem_of_dom. vm_compute. eexists. reflexivity. }
    rewrite <- Heq in Hin. apply elem_of_dom in Hin as [x Hx].
    vm_compute in Hx. discriminate.
Qed.

(** The theorem at the cluster of the test, one drifted node-claim whose
    node hosts a pod, under the default options. *)
Lemma drift_gate_disabled_witness :
  test.opt_FeatureGates_Drift Examples.defaultOptions = false
  ∧ is_Some (nc_Drifted (Examples.driftedClaim "provider-a" 5))
  ∧ Reconcile Examples.defaultOptions Examples.oneNewNode 0
              Examples.driftedCluster [] = []
  ∧ pass Examples.defaultOptions Examples.oneNewNode 0 Examples.launchAll
         Examples.driftedCluster = Examples.driftedCluster.
Proof.
  split; [reflexivity|]. split; [by eexists|].
  pose proof (drift_gate_disabled Examples.defaultOptions Examples.oneNewNode 0
                Examples.launchAll Examples.driftedCluster [] eq_refl)
    as (_ & _ & Hpass).
  assert (pass Examples.defaultOptions Examples.oneNewNode 0 Examples.launchAll
               Examples.driftedCluster = Examples.driftedCluster) as Heq.
  { apply Hpass. intros pn p Hp.
    change (nodePools Examples.driftedCluster)
      with ({[ "default" := Examples.nodePool "default" None
                              Examples.neverDisruption ]}
            : gmap string v1beta1.NodePool) in Hp.
    apply lookup_singleton_Some in Hp as [_ <-]. split; reflexivity. }
  split; [|exact Heq].
  vm_compute. reflexivity.
Defined.
End PassExamples.

(** ** A Replace command whose replacement fails *)
Section ReplaceFailureProperties.
Import disruption.

Variable CloudProvider_Create : NewNodeClaim -> LaunchOutcome.

Lemma alterNode_frame f c n :
  nodeClaims (alterNode f c n) = nodeClaims c
  ∧ pods (alterNode f c n) = pods c
  ∧ markedForDeletion (alterNode f c n) = markedForDeletion c
  ∧ dom (nodes (alterNode f c n)) = dom (nodes c).
Proof.
  unfold alterNode. destruct (_ ≫= _) as [pid|]; [|done].
  split_and!; try done. simpl. apply dom_alter_L.
Qed.

Lemma fold_alterNode_frame f names c :
  nodeClaims (fold_left (alterNode f) names c) = nodeClaims c
  ∧ pods (fold_left (alterNode f) names c) = pods c
  ∧ markedForDeletion (fold_left (alterNode f) names c) = markedForDeletion c
  ∧ dom (nodes (fold_left (alterNode f) names c)) = dom (nodes c).
Proof.
  revert c. induction names as [|n names IH]; intros c; simpl; [done|].
  destruct (IH (alterNode f c n)) as (-> & -> & -> & ->).
  apply alterNode_frame.
Qed.

(** Deleting a list of names from the node-claims. *)
Lemma fold_removeNodeClaim_frame names c :
  nodeClaims (fold_left removeNodeClaim names c)
  = foldr delete (nodeClaims c) names
  ∧ nodes (fold_left removeNodeClaim names c) = nodes c
  ∧ pods (fold_left removeNodeClaim names c) = pods c
  ∧ markedForDeletion (fold_left removeNodeClaim names c)
    = markedForDeletion c.
Proof.
  revert c. induction names as [|n names IH]; intros c; simpl; [done|].
  destruct (IH (removeNodeClaim c n)) as (-> & -> & -> & ->).
  split_and!; try done. simpl.
  clear IH. induction names as [|n' names IH]; simpl; [done|].
  by rewrite IH, delete_delete.
Qed.

(** The node-claims that [createNodeClaims] adds are new, are there
    afterwards, and removing them gives back the node-claims it started
    from; nothing else changes. *)
Lemma createNodeClaims_spec c specs :
  let r := createNodeClaims c specs in
  length r.2 = length specs
  ∧ (∀ n, n ∈ r.2 -> nodeClaims c !! n = None ∧ is_Some (nodeClaims r.1 !! n))
  ∧ (∀ n, is_Some (nodeClaims c !! n) -> is_Some (nodeClaims r.1 !! n))
  ∧ foldr delete (nodeClaims r.1) r.2 = nodeClaims c
  ∧ nodes r.1 = nodes c
  ∧ pods r.1 = pods c
  ∧ markedForDeletion r.1 = markedForDeletion c.
Proof.
  revert c. induction specs as [|spec rest IH]; intros c;
    cbn [createNodeClaims].
  - simpl. split_and!; try done. intros n Hn. by apply elem_of_nil in Hn.
  - pose proof (is_fresh (dom (nodeClaims c))) as Hfresh.
    rewrite elem_of_dom, <- eq_None_not_Some in Hfresh.
    unfold createNodeClaim. set (x := fresh (dom (nodeClaims c))) in *.
    set (c1 := set_nodeClaims _ c).
    specialize (IH c1). destruct (createNodeClaims c1 rest) as [c2 names].
    cbn [fst snd] in *.
    destruct IH as (Hlen & Hnew & Hold & Hdel & Hnodes & Hpods & Hmarks).
    assert (Hc1 : ∀ n, nodeClaims c1 !! n
                       = if decide (x = n) then
                           Some {| nc_ProviderID := None;
                                   nc_NodePool := new_NodePool spec;
                                   nc_Price := new_Price spec;
                                   nc_CreationTimestamp := now c;
                                   nc_Initialized := false;
                                   nc_Drifted := None; nc_Empty := None |}
                         else nodeClaims c !! n).
    { intros n. unfold c1. simpl. apply lookup_insert. }
    split_and!.
    + simpl. by rewrite Hlen.
    + intros n Hn. apply elem_of_cons in Hn as [->|Hn].
      * split; [done|]. apply Hold. rewrite Hc1, decide_True by done.
        by eexists.
      * destruct (Hnew n Hn) as [Hnone Hsome]. split; [|done].
        rewrite Hc1 in Hnone. by case_decide.
    + intros n Hn. apply Hold. rewrite Hc1. case_decide; [by eexists|done].
    + simpl. rewrite Hdel. unfold c1. simpl.
      rewrite delete_insert_eq. by apply delete_id.
    + by rewrite Hnodes.
    + by rewrite Hpods.
    + by rewrite Hmarks.
Qed.

Lemma removeTaint_clears nd :
  DisruptionNoScheduleTaint ∉ node_Taints (removeTaint nd).
Proof.
  unfold removeTaint. simpl. intros Hin.
  apply list_elem_of_In, filter_In in Hin as [_ Hb].
  by rewrite bool_decide_eq_true_2 in Hb.
Qed.

Lemma alterNode_removeTaint_stays_clear c n pid :
  (∀ nd, nodes c !! pid = Some nd ->
         DisruptionNoScheduleTaint ∉ node_Taints nd) ->
  ∀ nd, nodes (alterNode removeTaint c n) !! pid = Some nd ->
        DisruptionNoScheduleTaint ∉ node_Taints nd.
Proof.
  intros Hclear nd. unfold alterNode.
  destruct (_ ≫= _) as [pid'|]; [|apply Hclear]. simpl.
  rewrite lookup_alter. case_decide; [|apply Hclear].
  destruct (nodes c !! pid') as [nd0|]; [|done].
  intros [= <-]. apply removeTaint_clears.
Qed.

Lemma untaint_clears names c n nc pid nd :
  n ∈ names -> nodeClaims c !! n = Some nc -> nc_ProviderID nc = Some pid ->
  nodes (untaint names c) !! pid = Some nd ->
  DisruptionNoScheduleTaint ∉ node_Taints nd.
Proof.
  unfold untaint. intros Hin Hl Hp. revert nd.
  assert (Hstay : ∀ names c,
             (∀ nd, nodes c !! pid = Some nd ->
                    DisruptionNoScheduleTaint ∉ node_Taints nd) ->
             ∀ nd, nodes (fold_left (alterNode removeTaint) names c) !! pid
                   = Some nd ->
                   DisruptionNoScheduleTaint ∉ node_Taints nd).
  { clear. intros names. induction names as [|n names IH]; intros c Hc;
      simpl; [done|].
    apply IH. by apply alterNode_removeTaint_stays_clear. }
  revert c Hl. induction names as [|n' names IH]; intros c Hl.
  { by apply elem_of_nil in Hin. }
  simpl. apply elem_of_cons in Hin as [<-|Hin].
  - apply Hstay. intros nd. unfold alterNode. rewrite Hl. simpl. rewrite Hp.
    simpl. rewrite lookup_alter_eq.
    destruct (nodes c !! pid) as [nd0|]; [|done].
    intros [= <-]. apply removeTaint_clears.
  - apply IH; [done|].
    destruct (alterNode_frame removeTaint c n') as (-> & _). done.
Qed.

Lemma fold_alterNode_config f names c :
  nodePools (fold_left (alterNode f) names c) = nodePools c
  ∧ now (fold_left (alterNode f) names c) = now c
  ∧ synced (fold_left (alterNode f) names c) = synced c.
Proof.
  revert c. induction names as [|n names IH]; intros c; simpl; [done|].
  destruct (IH (alterNode f c n)) as (-> & -> & ->).
  unfold alterNode. by destruct (_ ≫= _).
Qed.

Lemma fold_removeNodeClaim_config names c :
  nodePools (fold_left removeNodeClaim names c) = nodePools c
  ∧ now (fold_left removeNodeClaim names c) = now c
  ∧ synced (fold_left removeNodeClaim names c) = synced c.
Proof.
  revert c. induction names as [|n names IH]; intros c; simpl; [done|].
  by destruct (IH (removeNodeClaim c n)) as (-> & -> & ->).
Qed.

Lemma createNodeClaims_config c specs :
  nodePools (createNodeClaims c specs).1 = nodePools c
  ∧ now (createNodeClaims c specs).1 = now c
  ∧ synced (createNodeClaims c specs).1 = synced c.
Proof.
  revert c. induction specs as [|spec rest IH]; intros c;
    cbn [createNodeClaims]; [done|].
  unfold createNodeClaim. set (c1 := set_nodeClaims _ c).
  specialize (IH c1). destruct (createNodeClaims c1 rest) as [c2 names].
  cbn [fst snd] in *. by destruct IH as (-> & -> & ->).
Qed.

(** The node under a provider id after a function has been applied to the
    nodes of the named node-claims: the function was applied to it once
    for every name whose node-claim has that provider id. *)
Lemma fold_alterNode_nodes f names c pid :
  ∃ k, nodes (fold_left (alterNode f) names c) !! pid
       = Nat.iter k f <$> nodes c !! pid
       ∧ ((1 <= k)%nat
          <-> ∃ n nc, n ∈ names ∧ nodeClaims c !! n = Some nc
                      ∧ nc_ProviderID nc = Some pid).
Proof.
  revert c. induction names as [|n names IH]; intros c; cbn [fold_left].
  - exists 0%nat. split; [by destruct (nodes c !! pid)|].
    split; [lia|]. intros (n & nc & Hin & _). by apply elem_of_nil in Hin.
  - destruct (IH (alterNode f c n)) as (k & Hk & Hiff).
    destruct (alterNode_frame f c n) as (Hclaims & _).
    rewrite Hclaims in Hiff. rewrite Hk. clear Hk Hclaims.
    assert (Htail : ∀ n' nc', n' ∈ names -> nodeClaims c !! n' = Some nc' ->
                              nc_ProviderID nc' = Some pid ->
                              ∃ n nc, n ∈ names ∧ nodeClaims c !! n = Some nc
                                      ∧ nc_ProviderID nc = Some pid)
      by (intros n' nc' ? ? ?; by exists n', nc').
    unfold alterNode.
    destruct (nodeClaims c !! n ≫= nc_ProviderID) as [pidn|] eqn:Hb.
    + apply bind_Some in Hb as (ncn & Hn & Hp). cbn [nodes set_nodes].
      destruct (decide (pidn = pid)) as [->|Hne].
      * exists (S k). split.
        -- rewrite lookup_alter_eq.
           destruct (nodes c !! pid) as [nd|]; simpl; [|done].
           by rewrite <- Nat.iter_succ_r.
        -- split; [|lia]. intros _. exists n, ncn.
           split; [apply list_elem_of_here|done].
      * exists k. split; [by rewrite lookup_alter_ne|].
        rewrite Hiff. split.
        -- intros (n' & nc' & Hin & Hl & Hp'). exists n', nc'.
           split; [by apply list_elem_of_further|done].
        -- intros (n' & nc' & Hin & Hl & Hp').
           apply elem_of_cons in Hin as [->|Hin]; [congruence|].
           by apply (Htail n' nc').
    + exists k. split; [done|]. rewrite Hiff. split.
      * intros (n' & nc' & Hin & Hl & Hp'). exists n', nc'.
        split; [by apply list_elem_of_further|done].
      * intros (n' & nc' & Hin & Hl & Hp').
        apply elem_of_cons in Hin as [->|Hin]; [|by apply (Htail n' nc')].
        rewrite Hl in Hb. simpl in Hb. congruence.
Qed.

Lemma filter_idempotent {A} (f : A -> bool) (l : list A) :
  List.filter f (List.filter f l) = List.filter f l.
Proof.
  induction l as [|x l IH]; simpl; [done|].
  destruct (f x) eqn:Hx; simpl; [|done]. by rewrite Hx, IH.
Qed.

Lemma filter_other_taints_id (l : list v1beta1.Taint) :
  DisruptionNoScheduleTaint ∉ l ->
  List.filter (fun t => negb (bool_decide (t = DisruptionNoScheduleTaint))) l
  = l.
Proof.
  induction l as [|t l IH]; simpl; intros Hnot; [done|].
  apply not_elem_of_cons in Hnot as [Hne Hnot].
  rewrite bool_decide_eq_false_2 by congruence. simpl. by rewrite IH.
Qed.

(** Cordoning keeps the name, the annotations and the other taints of a
    node. *)
Lemma iter_addTaint_fields k nd :
  node_Name (Nat.iter k addTaint nd) = node_Name nd
  ∧ node_Annotations (Nat.iter k addTaint nd) = node_Annotations nd
  ∧ List.filter (fun t => negb (bool_decide (t = DisruptionNoScheduleTaint)))
                (node_Taints (Nat.iter k addTaint nd))
    = List.filter (fun t => negb (bool_decide (t = DisruptionNoScheduleTaint)))
                  (node_Taints nd).
Proof.
  induction k as [|k (IH1 & IH2 & IH3)]; simpl; [done|].
  split_and!; [done|done|]. case_bool_decide; [done|].
  rewrite List.filter_app. simpl. by rewrite app_nil_r.
Qed.

(** Untainting keeps the name and the annotations of a node, and of its
    taints exactly those that are not the disruption taint. *)
Lemma iter_removeTaint_fields j nd :
  (1 <= j)%nat ->
  node_Name (Nat.iter j removeTaint nd) = node_Name nd
  ∧ node_Annotations (Nat.iter j removeTaint nd) = node_Annotations nd
  ∧ node_Taints (Nat.iter j removeTaint nd)
    = List.filter (fun t => negb (bool_decide (t = DisruptionNoScheduleTaint)))
                  (node_Taints nd).
Proof.
  intros Hj. destruct j as [|j]; [lia|]. clear Hj.
  induction j as [|j (IH1 & IH2 & IH3)]; [done|].
  change (Nat.iter (S (S j)) removeTaint nd)
    with (removeTaint (Nat.iter (S j) removeTaint nd)).
  unfold removeTaint at 1 3 5. cbn [node_Name node_Annotations node_Taints].
  split_and!; [done|done|]. by rewrite IH3, filter_idempotent.
Qed.

Lemma Cluster_eq (c1 c2 : Cluster) :
  nodeClaims c1 = nodeClaims c2 -> nodes c1 = nodes c2 -> pods c1 = pods c2 ->
  nodePools c1 = nodePools c2 ->
  markedForDeletion c1 = markedForDeletion c2 ->
  now c1 = now c2 -> synced c1 = synced c2 -> c1 = c2.
Proof. destruct c1, c2. simpl. by intros -> -> -> -> -> -> ->. Qed.

Lemma Node_eq (n1 n2 : Node) :
  node_Name n1 = node_Name n2 -> node_Annotations n1 = node_Annotations n2 ->
  node_Taints n1 = node_Taints n2 -> n1 = n2.
Proof. destruct n1, n2. simpl. by intros -> -> ->. Qed.

(** C2: when the creation of a replacement fails or the replacement times
    out, the queue drops the Replace command and restores the state: the
    new node-claims that were attempted are gone and the node-claims are
    those from before, so the old node-claims still exist; every node is
    still there under its name and with its annotations, the old nodes
    with the taints they had except the disruption taint and the other
    nodes exactly as before; the old nodes are no longer marked for
    deletion; pods, NodePools and clock are as before.  When the old
    nodes were neither cordoned nor marked before the command, the
    cluster is exactly the one from before. *)
Theorem replace_failure_restores (c : Cluster) (reason : Method)
        (old : list string) (new : list NewNodeClaim) (q : list Command) :
  (∃ spec, spec ∈ new
           ∧ (CloudProvider_Create spec = CreateFailed
              ∨ CloudProvider_Create spec = TimedOut)) ->
  let attempted := attempt c old new in
  let r := Queue_Reconcile CloudProvider_Create c (Replace reason old new :: q) in
  r.2 = q
  ∧ length attempted.2 = length new
  ∧ (∀ n, n ∈ attempted.2 ->
          nodeClaims c !! n = None
          ∧ is_Some (nodeClaims attempted.1 !! n)
          ∧ nodeClaims r.1 !! n = None)
  ∧ nodeClaims r.1 = nodeClaims c
  ∧ dom (nodes r.1) = dom (nodes c)
  ∧ (∀ n nc pid nd, n ∈ old -> nodeClaims c !! n = Some nc ->
                    nc_ProviderID nc = Some pid ->
                    nodes r.1 !! pid = Some nd ->
                    DisruptionNoScheduleTaint ∉ node_Taints nd)
  ∧ (∀ n, n ∈ old -> n ∉ markedForDeletion r.1)
  ∧ pods r.1 = pods c
  ∧ (∀ pid nd, nodes c !! pid = Some nd ->
       ∃ nd', nodes r.1 !! pid = Some nd'
              ∧ node_Name nd' = node_Name nd
              ∧ node_Annotations nd' = node_Annotations nd
              ∧ ((∃ n nc, n ∈ old ∧ nodeClaims c !! n = Some nc
                          ∧ nc_ProviderID nc = Some pid) ->
                 node_Taints nd'
                 = List.filter
                     (fun t => negb (bool_decide
                                       (t = DisruptionNoScheduleTaint)))
                     (node_Taints nd))
              ∧ (¬ (∃ n nc, n ∈ old ∧ nodeClaims c !! n = Some nc
                            ∧ nc_ProviderID nc = Some pid) ->
                 nd' = nd))
  ∧ markedForDeletion r.1 = markedForDeletion c ∖ list_to_set old
  ∧ nodePools r.1 = nodePools c ∧ now r.1 = now c ∧ synced r.1 = synced c
  ∧ ((∀ n nc pid nd, n ∈ old -> nodeClaims c !! n = Some nc ->
                     nc_ProviderID nc = Some pid ->
                     nodes c !! pid = Some nd ->
                     DisruptionNoScheduleTaint ∉ node_Taints nd) ->
     (∀ n, n ∈ old -> n ∉ markedForDeletion c) ->
     r.1 = c).
Proof.
  intros (spec & Hspec & Hfail) attempted r.
  assert (allInitialized CloudProvider_Create new = false) as Hnot.
  { apply not_true_is_false. intros Hall.
    unfold allInitialized in Hall. rewrite forallb_forall in Hall.
    specialize (Hall spec). rewrite <- list_elem_of_In in Hall.
    apply Hall, bool_decide_eq_true_1 in Hspec.
    destruct Hfail; congruence. }
  unfold r, Queue_Reconcile, execute. fold attempted.
  unfold attempted, attempt.
  set (c1 := cordon old (MarkForDeletion old c)).
  pose proof (createNodeClaims_spec c1 new) as Hcreate.
  pose proof (createNodeClaims_config c1 new) as Hcreatecfg.
  destruct (createNodeClaims c1 new) as [c2 created]. cbn [fst snd] in *.
  rewrite Hnot. cbn [fst snd].
  destruct Hcreate as (Hlen & Hnew & _ & Hdel & Hnodes & Hpods & Hmarks).
  destruct Hcreatecfg as (Hpools2 & Hnow2 & Hsynced2).
  destruct (fold_alterNode_frame addTaint old (MarkForDeletion old c))
    as (Hc1claims & Hc1pods & Hc1marks & Hc1dom).
  destruct (fold_alterNode_config addTaint old (MarkForDeletion old c))
    as (Hc1pools & Hc1now & Hc1synced).
  fold (cordon old (MarkForDeletion old c)) in Hc1claims, Hc1pods, Hc1marks,
    Hc1dom, Hc1pools, Hc1now, Hc1synced.
  fold c1 in Hc1claims, Hc1pods, Hc1marks, Hc1dom, Hc1pools, Hc1now, Hc1synced.
  simpl in Hc1claims, Hc1pods, Hc1dom, Hc1marks, Hc1pools, Hc1now, Hc1synced.
  set (c3 := UnmarkForDeletion old (fold_left removeNodeClaim created c2)).
  destruct (fold_removeNodeClaim_frame created c2)
    as (Hrclaims & Hrnodes & Hrpods & Hrmarks).
  destruct (fold_removeNodeClaim_config created c2)
    as (Hrpools & Hrnow & Hrsynced).
  assert (nodeClaims c3 = nodeClaims c) as Hc3claims.
  { unfold c3. simpl. by rewrite Hrclaims, Hdel. }
  assert (nodes c3 = nodes c1) as Hc3nodes.
  { unfold c3. simpl. by rewrite Hrnodes, Hnodes. }
  destruct (fold_alterNode_frame removeTaint old c3)
    as (Huclaims & Hupods & Humarks & Hudom).
  destruct (fold_alterNode_config removeTaint old c3)
    as (Hupools & Hunow & Husynced).
  fold (untaint old c3) in Huclaims, Hupods, Humarks, Hudom, Hupools, Hunow,
    Husynced.
  assert (Hnode : ∀ pid,
            ∃ k j, nodes (untaint old c3) !! pid
                   = Nat.iter j removeTaint
                       <$> (Nat.iter k addTaint <$> nodes c !! pid)
                   ∧ ((1 <= k)%nat
                      <-> ∃ n nc, n ∈ old ∧ nodeClaims c !! n = Some nc
                                  ∧ nc_ProviderID nc = Some pid)
                   ∧ ((1 <= j)%nat
                      <-> ∃ n nc, n ∈ old ∧ nodeClaims c !! n = Some nc
                                  ∧ nc_ProviderID nc = Some pid)).
  { intros pid.
    destruct (fold_alterNode_nodes addTaint old (MarkForDeletion old c) pid)
      as (k & Hk & Hkiff).
    destruct (fold_alterNode_nodes removeTaint old c3 pid) as (j & Hj & Hjiff).
    fold (cordon old (MarkForDeletion old c)) in Hk. fold c1 in Hk.
    fold (untaint old c3) in Hj. simpl in Hk, Hkiff.
    rewrite Hc3claims in Hjiff. rewrite Hc3nodes, Hk in Hj.
    by exists k, j. }
  assert (Hmarked : markedForDeletion (untaint old c3)
                    = markedForDeletion c ∖ list_to_set old).
  { rewrite Humarks. unfold c3. simpl. rewrite Hrmarks, Hmarks, Hc1marks.
    apply set_eq. intros x.
    rewrite !elem_of_difference, elem_of_union. tauto. }
  assert (Hrestored : ∀ pid nd, nodes c !! pid = Some nd ->
       ∃ nd', nodes (untaint old c3) !! pid = Some nd'
              ∧ node_Name nd' = node_Name nd
              ∧ node_Annotations nd' = node_Annotations nd
              ∧ ((∃ n nc, n ∈ old ∧ nodeClaims c !! n = Some nc
                          ∧ nc_ProviderID nc = Some pid) ->
                 node_Taints nd'
                 = List.filter
                     (fun t => negb (bool_decide
                                       (t = DisruptionNoScheduleTaint)))
                     (node_Taints nd))
              ∧ (¬ (∃ n nc, n ∈ old ∧ nodeClaims c !! n = Some nc
                            ∧ nc_ProviderID nc = Some pid) ->
                 nd' = nd)).
  { intros pid nd Hnd. destruct (Hnode pid) as (k & j & Hl & Hkiff & Hjiff).
    rewrite Hnd in Hl. simpl in Hl. eexists. split; [exact Hl|].
    destruct (iter_addTaint_fields k nd) as (Ha1 & Ha2 & Ha3).
    destruct j as [|j].
    - simpl. split_and!; [done|done| |].
      + intros Ht. apply Hjiff in Ht. lia.
      + intros Hn. destruct k as [|k]; [done|].
        exfalso. apply Hn, Hkiff. lia.
    - destruct (iter_removeTaint_fields (S j) (Nat.iter k addTaint nd))
        as (Hr1 & Hr2 & Hr3); [lia|].
      split_and!.
      + by rewrite Hr1.
      + by rewrite Hr2.
      + intros _. by rewrite Hr3.
      + intros Hn. exfalso. apply Hn, Hjiff. lia. }
  split_and!.
  - done.
  - done.
  - intros n Hn. destruct (Hnew n Hn) as [Hnone Hsome].
    rewrite Hc1claims in Hnone. split_and!; [done|done|].
    by rewrite Huclaims, Hc3claims.
  - by rewrite Huclaims.
  - rewrite Hudom. unfold c3. simpl. by rewrite Hrnodes, Hnodes.
  - intros n nc pid nd Hn Hl Hp. apply (untaint_clears old c3 n nc pid nd Hn);
      [|done]. by rewrite Hc3claims.
  - intros n Hn. rewrite Hmarked.
    rewrite elem_of_difference, elem_of_list_to_set. tauto.
  - rewrite Hupods. unfold c3. simpl. by rewrite Hrpods, Hpods.
  - exact Hrestored.
  - exact Hmarked.
  - rewrite Hupools. unfold c3. simpl. by rewrite Hrpools, Hpools2.
  - rewrite Hunow. unfold c3. simpl. by rewrite Hrnow, Hnow2.
  - rewrite Husynced. unfold c3. simpl. by rewrite Hrsynced, Hsynced2.
  - intros Hclean Hunmarked. apply Cluster_eq.
    + by rewrite Huclaims.
    + apply map_eq. intros pid.
      destruct (nodes c !! pid) as [nd|] eqn:Hnd.
      * destruct (Hrestored pid nd Hnd) as (nd' & Hl & Hn1 & Hn2 & Ht & Hsame).
        rewrite Hl. f_equal.
        destruct (Hnode pid) as (k & j & _ & Hkiff & _).
        destruct k as [|k].
        -- apply Hsame. intros Htarget. apply Hkiff in Htarget. lia.
        -- assert (∃ n nc, n ∈ old ∧ nodeClaims c !! n = Some nc
                           ∧ nc_ProviderID nc = Some pid) as Htarget.
           { apply Hkiff. lia. }
           apply Node_eq; [done|done|]. rewrite (Ht Htarget).
           apply filter_other_taints_id.
           destruct Htarget as (n & nc & Hin & Hc & Hp).
           by apply (Hclean n nc pid nd).
      * destruct (Hnode pid) as (k & j & Hl & _). by rewrite Hnd in Hl.
    + rewrite Hupods. unfold c3. simpl. by rewrite Hrpods, Hpods.
    + rewrite Hupools. unfold c3. simpl. by rewrite Hrpools, Hpools2.
    + rewrite Hmarked. apply set_eq. intros x.
      rewrite elem_of_difference, elem_of_list_to_set. split; [tauto|].
      intros Hx. split; [done|]. intros Ho. by apply (Hunmarked x).
    + rewrite Hunow. unfold c3. simpl. by rewrite Hrnow, Hnow2.
    + rewrite Husynced. unfold c3. simpl. by rewrite Hrsynced, Hsynced2.
Qed.
End ReplaceFailureProperties.

Section ReplaceFailureExamples.
Import disruption.

(** The theorem at the scenario of the test: the drifted node hosts a
    replica-set pod, the engine issues a Replace command, and the cloud
    provider rejects Create. *)
Lemma replace_failure_restores_witness :
  Reconcile Examples.driftEnabled Examples.oneNewNode 0
            Examples.driftedCluster []
  = [Replace Drift ["claim-a"] [Examples.replacement]]
  ∧ Examples.rejectCreate Examples.replacement = CreateFailed
  ∧ (Queue_Reconcile Examples.rejectCreate Examples.driftedCluster
       [Replace Drift ["claim-a"] [Examples.replacement]]).2 = []
  ∧ nodeClaims
      (Queue_Reconcile Examples.rejectCreate Examples.driftedCluster
         [Replace Drift ["claim-a"] [Examples.replacement]]).1
    = nodeClaims Examples.driftedCluster
  ∧ ∀ nd, nodes
            (Queue_Reconcile Examples.rejectCreate Examples.driftedCluster
               [Replace Drift ["claim-a"] [Examples.replacement]]).1
          !! "provider-a" = Some nd ->
          DisruptionNoScheduleTaint ∉ node_Taints nd.
Proof.
  split; [vm_compute; reflexivity|]. split; [reflexivity|].
  assert (∃ spec, spec ∈ [Examples.replacement]
                  ∧ (Examples.rejectCreate spec = CreateFailed
                     ∨ Examples.rejectCreate spec = TimedOut)) as Hfail.
  { exists Examples.replacement. split; [apply list_elem_of_here|by left]. }
  pose proof (replace_failure_restores Examples.rejectCreate
                Examples.driftedCluster Drift ["claim-a"]
                [Examples.replacement] [] Hfail)
    as (Hq & _ & _ & Hclaims & _ & Htaint & _).
  split; [exact Hq|]. split; [exact Hclaims|].
  intros nd. apply (Htaint "claim-a" (Examples.driftedClaim "provider-a" 5)).
  - apply list_elem_of_here.
  - vm_compute. reflexivity.
  - reflexivity.
Defined.
End ReplaceFailureExamples.

(** * Further properties of the code *)

(** ** Limits.ExceededBy *)
Section LimitsFurtherProperties.
Import v1beta1.

(** X1: Whether [ExceededBy] returns an error does not depend on the order in
    which the range visits the resources. *)
Theorem ExceededBy_order_independent (l : option (gmap string Z))
        (order1 order2 : list (string * Z)) :
  order1 ≡ₚ order2 ->
  (ExceededBy_in_order l order1 = None
   <-> ExceededBy_in_order l order2 = None).
Proof.
  intros Hperm. destruct l as [lm|]; simpl; [|done].
  rewrite !ExceededBy_range_None.
  split; intros H name usage limit Hin; apply H; [by rewrite Hperm|
    by rewrite <- Hperm].
Qed.

Lemma ExceededBy_order_independent_witness :
  [("cpu", 8); ("memory", 2)] ≡ₚ [("memory", 2); ("cpu", 8)]
  ∧ (ExceededBy_in_order (Some {[ "cpu" := 4 ]}) [("cpu", 8); ("memory", 2)]
     = None
     <-> ExceededBy_in_order (Some {[ "cpu" := 4 ]})
           [("memory", 2); ("cpu", 8)] = None).
Proof.
  assert ([("cpu", 8); ("memory", 2)] ≡ₚ [("memory", 2); ("cpu", 8)]) as Hp.
  { apply Permutation_swap. }
  split; [exact Hp|].
  exact (ExceededBy_order_independent (Some {[ "cpu" := 4 ]}) _ _ Hp).
Defined.

(** X2: A usage that is within the limits stays within them when usages go
    down (or resources drop out) and when limits go up (or are lifted). *)
Theorem ExceededBy_monotone (lm lm' resources resources' : gmap string Z)
        (order order' : list (string * Z)) :
  order ≡ₚ map_to_list resources ->
  order' ≡ₚ map_to_list resources' ->
  (∀ name usage', resources' !! name = Some usage' ->
     ∃ usage, resources !! name = Some usage ∧ usage' <= usage) ->
  (∀ name limit', lm' !! name = Some limit' ->
     ∃ limit, lm !! name = Some limit ∧ limit <= limit') ->
  ExceededBy_in_order (Some lm) order = None ->
  ExceededBy_in_order (Some lm') order' = None.
Proof.
  intros Ho Ho' Husage Hlimit. simpl. rewrite !ExceededBy_range_None.
  intros Hok name usage' limit' Hin Hl'.
  rewrite Ho' in Hin. apply elem_of_map_to_list in Hin.
  destruct (Husage _ _ Hin) as (usage & Hu & Hle).
  destruct (Hlimit _ _ Hl') as (limit & Hl & Hle').
  assert (usage <= limit); [|lia].
  apply (Hok name); [|done]. rewrite Ho. by apply elem_of_map_to_list.
Qed.

Lemma ExceededBy_monotone_witness :
  ExceededBy (Some {[ "cpu" := 4 ]}) {[ "cpu" := 4; "memory" := 9 ]} = None
  ∧ ExceededBy (Some {[ "cpu" := 6 ]}) {[ "cpu" := 3 ]} = None.
Proof.
  assert (ExceededBy (Some {[ "cpu" := 4 ]}) {[ "cpu" := 4; "memory" := 9 ]}
          = None) as Hwithin.
  { vm_compute. reflexivity. }
  split; [exact Hwithin|].
  apply (ExceededBy_monotone {[ "cpu" := 4 ]} {[ "cpu" := 6 ]}
           {[ "cpu" := 4; "memory" := 9 ]} {[ "cpu" := 3 ]}
           (map_to_list {[ "cpu" := 4; "memory" := 9 ]})
           (map_to_list {[ "cpu" := 3 ]}));
    [reflexivity|reflexivity| | |exact Hwithin].
  - intros name usage' Hl. apply lookup_singleton_Some in Hl as [<- <-].
    exists 4. split; [|lia]. clear. vm_compute. reflexivity.
  - intros name limit' Hl. apply lookup_singleton_Some in Hl as [<- <-].
    exists 4. split; [|lia]. clear. vm_compute. reflexivity.
Defined.

(** X3: Nothing exceeds an empty set of limits, and an empty usage exceeds no
    limits. *)
Theorem ExceededBy_empty (l : option (gmap string Z)) (resources : gmap string Z) :
  ExceededBy (Some ∅) resources = None ∧ ExceededBy l ∅ = None.
Proof.
  split.
  - unfold ExceededBy. simpl. apply ExceededBy_range_None.
    intros name usage limit _ Hl. by rewrite lookup_empty in Hl.
  - unfold ExceededBy. rewrite map_to_list_empty. by destruct l.
Qed.
End LimitsFurtherProperties.

(** ** OrderByWeight *)
Section OrderByWeightFurtherProperties.
Import v1beta1.

Lemma sort_Slice_weight_sorted (Items : list NodePool) :
  StronglySorted weight_desc (sort_Slice weight_less Items).
Proof.
  unfold sort_Slice. apply StronglySorted_rev_flip.
  generalize (@nil NodePool) (SSorted_nil (flip weight_desc)).
  induction Items as [|x l IH]; intros acc Hacc; simpl; [done|].
  apply IH. by apply insert_left_ascending.
Qed.

(** On a prefix whose last element weighs at least as much as every item
    still to come, the insertion sort only appends. *)
Lemma fold_insert_left_sorted (l acc : list NodePool) :
  StronglySorted weight_desc l ->
  (∀ y, head acc = Some y -> Forall (fun x => weight x <= weight y) l) ->
  fold_left (fun rp e => insert_left weight_less e rp) l acc = rev l ++ acc.
Proof.
  revert acc. induction l as [|x l IH]; intros acc Hs Hacc; simpl; [done|].
  apply StronglySorted_cons in Hs as [Hall Hs].
  assert (insert_left weight_less x acc = x :: acc) as ->.
  { destruct acc as [|y acc]; simpl; [done|].
    specialize (Hacc y eq_refl). apply Forall_cons in Hacc as [Hxy _].
    unfold weight_less. fold (weight x) (weight y).
    destruct (Z.gtb_spec (weight x) (weight y)); [lia|done]. }
  rewrite IH; [by rewrite <- app_assoc|done|].
  intros y [= <-]. exact Hall.
Qed.

(** X4: [OrderByWeight] leaves a list that is already in descending order of
    weight exactly as it is (equal weights included), and ordering twice
    is the same as ordering once. *)
Theorem OrderByWeight_idempotent (Items : list NodePool) :
  (StronglySorted weight_desc Items -> OrderByWeight Items = Items)
  ∧ OrderByWeight (OrderByWeight Items) = OrderByWeight Items.
Proof.
  assert (Hfix : ∀ l, StronglySorted weight_desc l -> OrderByWeight l = l).
  { intros l Hs. unfold OrderByWeight, sort_Slice.
    rewrite fold_insert_left_sorted; [|done|done].
    by rewrite app_nil_r, rev_involutive. }
  split; [apply Hfix|]. apply Hfix, sort_Slice_weight_sorted.
Qed.

Lemma OrderByWeight_idempotent_witness :
  StronglySorted weight_desc
    [ Examples.nodePool "b" (Some 10) Examples.neverDisruption;
      Examples.nodePool "a" None Examples.neverDisruption ]
  ∧ OrderByWeight
      [ Examples.nodePool "b" (Some 10) Examples.neverDisruption;
        Examples.nodePool "a" None Examples.neverDisruption ]
    = [ Examples.nodePool "b" (Some 10) Examples.neverDisruption;
        Examples.nodePool "a" None Examples.neverDisruption ].
Proof.
  assert (StronglySorted weight_desc
            [ Examples.nodePool "b" (Some 10) Examples.neverDisruption;
              Examples.nodePool "a" None Examples.neverDisruption ]) as Hs.
  { repeat constructor. unfold weight_desc. vm_compute. discriminate. }
  split; [exact Hs|].
  exact (proj1 (OrderByWeight_idempotent _) Hs).
Defined.

(** X5: The NodePool that [OrderByWeight] puts first has the greatest weight
    of the list: no item weighs more. *)
Theorem OrderByWeight_head_heaviest (Items : list NodePool) (first : NodePool)
        (rest : list NodePool) :
  OrderByWeight Items = first :: rest ->
  first ∈ Items ∧ ∀ p, p ∈ Items -> weight p <= weight first.
Proof.
  intros Heq.
  pose proof (sort_Slice_weight_sorted Items) as Hs.
  pose proof (sort_Slice_Permutation weight_less Items) as Hp.
  fold (OrderByWeight Items) in Hs, Hp. rewrite Heq in Hs, Hp.
  apply StronglySorted_cons in Hs as [Hall _].
  split.
  - rewrite <- Hp. apply list_elem_of_here.
  - intros p Hin. rewrite <- Hp in Hin.
    apply elem_of_cons in Hin as [->|Hin]; [lia|].
    rewrite Forall_forall in Hall. by apply Hall.
Qed.

Lemma OrderByWeight_head_heaviest_witness :
  OrderByWeight
    [ Examples.nodePool "a" None Examples.neverDisruption;
      Examples.nodePool "b" (Some 10) Examples.neverDisruption ]
  = [ Examples.nodePool "b" (Some 10) Examples.neverDisruption;
      Examples.nodePool "a" None Examples.neverDisruption ]
  ∧ weight (Examples.nodePool "a" None Examples.neverDisruption)
    <= weight (Examples.nodePool "b" (Some 10) Examples.neverDisruption).
Proof.
  assert (OrderByWeight
            [ Examples.nodePool "a" None Examples.neverDisruption;
              Examples.nodePool "b" (Some 10) Examples.neverDisruption ]
          = [ Examples.nodePool "b" (Some 10) Examples.neverDisruption;
              Examples.nodePool "a" None Examples.neverDisruption ]) as Heq.
  { reflexivity. }
  split; [exact Heq|].
  apply (OrderByWeight_head_heaviest _ _ _ Heq), list_elem_of_here.
Defined.
End OrderByWeightFurtherProperties.

(** ** Admission validation *)
Section ValidationFurtherProperties.
Import v1beta1.

Variable NodePoolLabelKey : string.
Variable IsQualifiedName : string -> list string.
Variable IsValidLabelValue : string -> list string.
Variable IsRestrictedLabel : string -> option string.
Variable NodeClaimSpec_validate : NodeClaimSpec -> list FieldErrorLeaf.

Local Abbreviation validateLabel :=
  (validateLabel NodePoolLabelKey IsQualifiedName IsValidLabelValue
                 IsRestrictedLabel).
Local Abbreviation validateLabels :=
  (validateLabels NodePoolLabelKey IsQualifiedName IsValidLabelValue
                  IsRestrictedLabel).
Local Abbreviation validateRequirements :=
  (validateRequirementsNodePoolKeyDoesNotExist NodePoolLabelKey).
Local Abbreviation validate :=
  (NodeClaimTemplate_validate NodePoolLabelKey IsQualifiedName
     IsValidLabelValue IsRestrictedLabel NodeClaimSpec_validate).

(** X6: [validate] reports the first violated rule only, and a negative
    ExpireAfter comes first: it is the error returned whatever else is
    wrong with the policy. *)
Theorem Disruption_validate_first_error (d : Disruption) :
  (length (Disruption_validate d) <= 1)%nat
  ∧ ((∃ x, Duration (ExpireAfter d) = Some x ∧ x < 0) ->
     Disruption_validate d
     = [ErrInvalidValue "cannot be negative" "expirationTTL"]).
Proof.
  unfold Disruption_validate. split.
  - repeat (match goal with |- context [if ?b then _ else _] =>
                              destruct b end); simpl; lia.
  - intros (x & -> & Hx). by rewrite (proj2 (Z.ltb_lt x 0) Hx).
Qed.

Lemma Disruption_validate_first_error_witness :
  Disruption_validate
    {| ConsolidateAfter := Some {| Duration := Some (-5) |};
       ConsolidationPolicy := ConsolidationPolicyWhenUnderutilized;
       ExpireAfter := {| Duration := Some (-1) |} |}
  = [ErrInvalidValue "cannot be negative" "expirationTTL"].
Proof.
  apply (Disruption_validate_first_error
           {| ConsolidateAfter := Some {| Duration := Some (-5) |};
              ConsolidationPolicy := ConsolidationPolicyWhenUnderutilized;
              ExpireAfter := {| Duration := Some (-1) |} |}).
  exists (-1). split; [reflexivity|lia].
Defined.

Lemma fold_Also_map {B} (f : B -> FieldErrorLeaf) (l : list B)
      (errs : list FieldErrorLeaf) :
  fold_left (fun errs b => Also errs [[f b]]) l errs = errs ++ map f l.
Proof.
  revert errs. induction l as [|b l IH]; intros errs; simpl.
  - by rewrite app_nil_r.
  - rewrite IH. unfold Also. simpl. by rewrite <- app_assoc.
Qed.

Lemma validateLabel_app errs kv :
  validateLabel errs kv = errs ++ validateLabel [] kv.
Proof.
  destruct kv as [key value]. unfold v1beta1.validateLabel.
  rewrite !fold_Also_map. unfold Also.
  case_bool_decide; destruct (IsRestrictedLabel key); simpl;
    rewrite ?app_nil_r, <- ?app_assoc; simpl; done.
Qed.

Lemma fold_validateLabel_flat_map (entries : list (string * string)) errs :
  fold_left validateLabel entries errs
  = errs ++ flat_map (validateLabel []) entries.
Proof.
  revert errs. induction entries as [|kv rest IH]; intros errs; simpl.
  - by rewrite app_nil_r.
  - rewrite IH, validateLabel_app. by rewrite <- app_assoc.
Qed.

(** X7: The errors [validateLabels] collects do not depend on the order in
    which the range visits the labels, up to their own order. *)
Theorem validateLabels_order_independent (in_ : NodeClaimTemplate)
        (order : list (string * string)) :
  order ≡ₚ map_to_list (Labels (template_ObjectMeta in_)) ->
  fold_left validateLabel order [] ≡ₚ validateLabels in_.
Proof.
  intros Hperm. unfold v1beta1.validateLabels.
  rewrite !fold_validateLabel_flat_map. simpl.
  induction Hperm as [|x l l' _ IH|x y l|l l' l'' _ IH1 _ IH2]; simpl.
  - done.
  - by rewrite IH.
  - rewrite !app_assoc. f_equiv. apply Permutation_app_comm.
  - by rewrite IH1.
Qed.

Lemma validateLabel_elem (key value : string) e :
  e ∈ validateLabel [] (key, value) ->
  (∃ details, e = ErrInvalidKeyName key "labels" details)
  ∨ (∃ msg, e = ErrInvalidValue (value +:+ ", " +:+ msg)
                                ("labels[" +:+ key +:+ "]")).
Proof.
  unfold v1beta1.validateLabel. rewrite !fold_Also_map. unfold Also.
  intros Hin.
  assert (Hcases :
    e ∈ (if bool_decide (key = NodePoolLabelKey)
         then [] ++ concat [[ErrInvalidKeyName key "labels" "restricted"]]
         else [])
    ∨ e ∈ map (fun err => ErrInvalidKeyName key "labels" err)
              (IsQualifiedName key)
    ∨ e ∈ map (fun err => ErrInvalidValue (value +:+ ", " +:+ err)
                                          ("labels[" +:+ key +:+ "]"))
              (IsValidLabelValue value)
    ∨ (∃ err, IsRestrictedLabel key = Some err
              ∧ e = ErrInvalidKeyName key "labels" err)).
  { destruct (IsRestrictedLabel key) as [err|].
    - apply elem_of_app in Hin as [Hin|Hin].
      + apply elem_of_app in Hin as [Hin|Hin]; [|tauto].
        apply elem_of_app in Hin as [Hin|Hin]; tauto.
      + simpl in Hin. apply list_elem_of_singleton in Hin.
        right. right. right. by exists err.
    - apply elem_of_app in Hin as [Hin|Hin]; [|tauto].
      apply elem_of_app in Hin as [Hin|Hin]; tauto. }
  destruct Hcases as [H|[H|[H|(err & _ & ->)]]].
  - case_bool_decide; [|by apply elem_of_nil in H].
    simpl in H. apply list_elem_of_singleton in H. left. by eexists.
  - apply list_elem_of_fmap in H as (err & -> & _). left. by eexists.
  - apply list_elem_of_fmap in H as (err & -> & _). right. by eexists.
  - left. by eexists.
Qed.

(** X8: Every error of [validateLabels] is about a label the template has: a
    key-name error for its key, or a value error for its value under the
    path of its key.  A template without labels gets no error. *)
Theorem validateLabels_errors_about_labels (in_ : NodeClaimTemplate) e :
  e ∈ validateLabels in_ ->
  ∃ key value,
    Labels (template_ObjectMeta in_) !! key = Some value
    ∧ ((∃ details, e = ErrInvalidKeyName key "labels" details)
       ∨ (∃ msg, e = ErrInvalidValue (value +:+ ", " +:+ msg)
                                     ("labels[" +:+ key +:+ "]"))).
Proof.
  unfold v1beta1.validateLabels. rewrite fold_validateLabel_flat_map. simpl.
  intros Hin. apply list_elem_of_In, in_flat_map in Hin as ([key value] & Hkv & He).
  apply list_elem_of_In, elem_of_map_to_list in Hkv.
  apply list_elem_of_In, validateLabel_elem in He.
  by exists key, value.
Qed.
End ValidationFurtherProperties.

Section TemplateValidateFurtherProperties.
Import v1beta1.

Variable NodePoolLabelKey : string.
Variable IsQualifiedName : string -> list string.
Variable IsValidLabelValue : string -> list string.
Variable IsRestrictedLabel : string -> option string.
Variable NodeClaimSpec_validate : NodeClaimSpec -> list FieldErrorLeaf.

Local Abbreviation validateLabels :=
  (validateLabels NodePoolLabelKey IsQualifiedName IsValidLabelValue
                  IsRestrictedLabel).
Local Abbreviation validateRequirements :=
  (validateRequirementsNodePoolKeyDoesNotExist NodePoolLabelKey).
Local Abbreviation validate :=
  (NodeClaimTemplate_validate NodePoolLabelKey IsQualifiedName
     IsValidLabelValue IsRestrictedLabel NodeClaimSpec_validate).

Lemma validateRequirements_from_elem i errs reqs e :
  e ∈ validateRequirements_from NodePoolLabelKey i errs reqs
  <-> e ∈ errs
      ∨ ∃ j r, reqs !! j = Some r ∧ Key r = NodePoolLabelKey
               ∧ e = ErrInvalidArrayValue (Key r +:+ " is restricted")
                                          "requirements" (i + j).
Proof.
  revert i errs. induction reqs as [|r rest IH]; intros i errs; simpl.
  - split; [by left|]. intros [H|(j & r & Hl & _)]; [done|].
    by rewrite lookup_nil in Hl.
  - rewrite IH. case_bool_decide as Hk.
    + unfold Also. simpl. rewrite elem_of_app, list_elem_of_singleton.
      split.
      * intros [[H| ->]|(j & r' & Hl & Hr & ->)].
        -- by left.
        -- right. exists 0%nat, r. rewrite Nat.add_0_r. done.
        -- right. exists (S j), r'. rewrite Nat.add_succ_r. done.
      * intros [H|(j & r' & Hl & Hr & ->)]; [by left; left|].
        destruct j as [|j]; simpl in Hl.
        -- injection Hl as <-. left. right. by rewrite Nat.add_0_r.
        -- right. exists j, r'. rewrite Nat.add_succ_r. done.
    + split.
      * intros [H|(j & r' & Hl & Hr & ->)]; [by left|].
        right. exists (S j), r'. rewrite Nat.add_succ_r. done.
      * intros [H|(j & r' & Hl & Hr & ->)]; [by left|].
        destruct j as [|j]; simpl in Hl.
        -- injection Hl as <-. done.
        -- right. exists j, r'. rewrite Nat.add_succ_r. done.
Qed.

Lemma validateRequirements_from_length i errs reqs :
  length (validateRequirements_from NodePoolLabelKey i errs reqs)
  = (length errs
     + length (List.filter
                 (fun r => bool_decide (Key r = NodePoolLabelKey)) reqs))%nat.
Proof.
  revert i errs. induction reqs as [|r rest IH]; intros i errs; simpl.
  - lia.
  - rewrite IH. case_bool_decide; simpl; [|done].
    unfold Also. rewrite length_app. simpl. lia.
Qed.

(** X9: [validateRequirementsNodePoolKeyDoesNotExist] reports exactly the
    requirements that use the nodepool key, one error each, and the
    error carries the index of the requirement in the list. *)
Theorem validateRequirements_errors (in_ : NodeClaimTemplate) :
  (∀ e, e ∈ validateRequirements in_
        <-> ∃ i r, Requirements (template_Spec in_) !! i = Some r
                   ∧ Key r = NodePoolLabelKey
                   ∧ e = ErrInvalidArrayValue (Key r +:+ " is restricted")
                                              "requirements" i)
  ∧ length (validateRequirements in_)
    = length (List.filter (fun r => bool_decide (Key r = NodePoolLabelKey))
                          (Requirements (template_Spec in_))).
Proof.
  unfold validateRequirementsNodePoolKeyDoesNotExist. split.
  - intros e. rewrite validateRequirements_from_elem. split.
    + intros [H|H]; [by apply elem_of_nil in H|done].
    + intros H. by right.
  - by rewrite validateRequirements_from_length.
Qed.

(** X10: The template's [validate] accepts a template exactly when it requests
    no resources and the three checks it combines accept it; and
    resource requests on the template are reported first, as disallowed
    fields. *)
Theorem NodeClaimTemplate_validate_accepts_iff (in_ : NodeClaimTemplate) :
  (validate in_ = []
   <-> Resources_Requests (template_Spec in_) = ∅
       ∧ validateLabels in_ = []
       ∧ validateRequirements in_ = []
       ∧ NodeClaimSpec_validate (template_Spec in_) = [])
  ∧ (Resources_Requests (template_Spec in_) ≠ ∅ ->
     head (validate in_) = Some (ErrDisallowedFields "resources.requests")).
Proof.
  unfold NodeClaimTemplate_validate, Also, ViaField.
  assert (Hsize : (0 < size (Resources_Requests (template_Spec in_)))%nat
                  <-> Resources_Requests (template_Spec in_) ≠ ∅).
  { rewrite <- map_size_non_empty_iff. lia. }
  split.
  - case_bool_decide as Hreq.
    + split; [done|]. intros [Hempty _]. by apply Hsize in Hreq.
    + simpl. rewrite app_nil_r.
      assert (Resources_Requests (template_Spec in_) = ∅) as Hempty.
      { destruct (decide (Resources_Requests (template_Spec in_) = ∅));
          [done|]. by apply Hsize in n. }
      split.
      * intros Heq. apply app_eq_nil in Heq as [H1 Heq].
        apply app_eq_nil in Heq as [H2 H3].
        apply fmap_nil_inv in H1, H2, H3. done.
      * intros (_ & -> & -> & ->). done.
  - intros Hne. apply Hsize in Hne.
    by rewrite (bool_decide_eq_true_2 _ Hne).
Qed.
End TemplateValidateFurtherProperties.

Section ValidationFurtherExamples.
Import v1beta1.

Local Abbreviation key := Examples.NodePoolLabelKey.
Local Abbreviation noRestriction := (fun _ : string => @None string).

(** The theorem at a template with three refused labels, visited in the
    reverse of the order of [map_to_list]: the errors come in another
    order, and are the same up to that order. *)
Lemma validateLabels_order_independent_witness :
  map_to_list (Labels (template_ObjectMeta Examples.threeBadLabelsTemplate))
  = [(key, "default"); ("my label", "x"); ("team", "bad value!")]
  ∧ fold_left (validateLabel key validation.IsQualifiedName
                             validation.IsValidLabelValue noRestriction)
              [("team", "bad value!"); ("my label", "x"); (key, "default")] []
    ≠ validateLabels key validation.IsQualifiedName
                     validation.IsValidLabelValue noRestriction
                     Examples.threeBadLabelsTemplate
  ∧ fold_left (validateLabel key validation.IsQualifiedName
                             validation.IsValidLabelValue noRestriction)
              [("team", "bad value!"); ("my label", "x"); (key, "default")] []
    ≡ₚ validateLabels key validation.IsQualifiedName
                      validation.IsValidLabelValue noRestriction
                      Examples.threeBadLabelsTemplate.
Proof.
  assert (map_to_list
            (Labels (template_ObjectMeta Examples.threeBadLabelsTemplate))
          = [(key, "default"); ("my label", "x"); ("team", "bad value!")])
    as Hlist by (vm_compute; reflexivity).
  split; [exact Hlist|]. split.
  - clear. intros Heq. vm_compute in Heq. discriminate Heq.
  - apply (validateLabels_order_independent key validation.IsQualifiedName
             validation.IsValidLabelValue noRestriction
             Examples.threeBadLabelsTemplate).
    rewrite Hlist. symmetry.
    apply (Permutation_rev
             [(key, "default"); ("my label", "x"); ("team", "bad value!")]).
Defined.

Lemma validateLabels_errors_about_labels_witness :
  ErrInvalidKeyName "my label" "labels"
    ("name part " +:+ validation.qualifiedNameErrMsg)
  ∈ validateLabels key validation.IsQualifiedName
                   validation.IsValidLabelValue noRestriction
                   Examples.badLabelTemplate
  ∧ ∃ k v, Labels (template_ObjectMeta Examples.badLabelTemplate) !! k = Some v.
Proof.
  assert (ErrInvalidKeyName "my label" "labels"
            ("name part " +:+ validation.qualifiedNameErrMsg)
          ∈ validateLabels key validation.IsQualifiedName
              validation.IsValidLabelValue noRestriction
              Examples.badLabelTemplate) as Hin.
  { vm_compute. apply list_elem_of_here. }
  split; [exact Hin|].
  destruct (validateLabels_errors_about_labels key validation.IsQualifiedName
              validation.IsValidLabelValue noRestriction
              Examples.badLabelTemplate _ Hin) as (k & v & Hl & _).
  by exists k, v.
Defined.
End ValidationFurtherExamples.

(** ** The pod metrics controller *)
Section PodControllerFurtherProperties.
Import pod.

Variable Get_Pod : NamespacedName -> error + Pod.
Variable Get_Node : string -> error + Node.

Local Abbreviation makeLabels := (makeLabels Get_Node).
Local Abbreviation Reconcile := (Reconcile Get_Pod Get_Node).
Local Abbreviation keyOf :=
  (fun p : Pod => NamespacedName_String (ObjectKeyFromObject p)).

(** X11: The labels [makeLabels] builds are exactly the label names the gauge
    is declared with, whatever the pod and its node are. *)
Theorem makeLabels_label_names (p : Pod) (labels : gmap string string) :
  makeLabels p = inr labels ->
  dom labels = list_to_set labelNames.
Proof.
  unfold pod.makeLabels.
  destruct (if bool_decide (NodeName p ≠ EmptyString) then _ else _)
    as [e|nd]; [done|].
  intros [= <-]. rewrite !dom_insert_L, dom_empty_L.
  unfold labelNames. simpl. set_solver.
Qed.

(** [makeLabels] fails only on a bound pod whose node cannot be read for
    another reason than not-found, and then with that error. *)
Lemma makeLabels_error (p : Pod) (e : error) :
  makeLabels p = inl e
  <-> NodeName p ≠ EmptyString ∧ Get_Node (NodeName p) = inl e
      ∧ IsNotFound e = false.
Proof.
  unfold pod.makeLabels. case_bool_decide as Hn.
  - destruct (Get_Node (NodeName p)) as [e'|nd]; simpl.
    + destruct (IsNotFound e') eqn:Hnf.
      * split; [done|]. intros (_ & [= <-] & ?). congruence.
      * split; [by intros [= <-]|]. by intros (_ & [= <-] & _).
    + split; [done|]. by intros (_ & ? & _).
  - split; [done|]. intros (Hne & _). done.
Qed.

(** X12: [Reconcile] never asks for a requeue; it returns an error exactly when
    reading the pod, or the node of a bound pod, fails for another reason
    than not-found, the error being that failure; and whenever it returns
    an error it has left the controller as it was. *)
Theorem Reconcile_error (c : Controller) (req : NamespacedName) :
  let r := Reconcile c req in
  r.1.2 = Result_zero
  ∧ (∀ e, r.2 = Some e
          <-> IsNotFound e = false
              ∧ (Get_Pod req = inl e
                 ∨ ∃ p, Get_Pod req = inr p ∧ NodeName p ≠ EmptyString
                        ∧ Get_Node (NodeName p) = inl e))
  ∧ (r.2 ≠ None -> r.1.1 = c).
Proof.
  unfold pod.Reconcile. destruct (Get_Pod req) as [err|p] eqn:Hget.
  - simpl. split; [done|]. destruct (IsNotFound err) eqn:Hnf; simpl.
    + split; [|done]. intros e. split; [done|].
      intros (He & [[= <-]|(p & ? & _)]); congruence.
    + split; [|done]. intros e. split.
      * intros [= <-]. split; [done|]. by left.
      * intros (_ & [[= <-]|(p & ? & _)]); done.
  - destruct (pod.makeLabels Get_Node p) as [err|labels] eqn:Hl; simpl.
    + apply makeLabels_error in Hl as (Hn & Hg & Hnf).
      split; [done|]. split; [|done]. intros e. split.
      * intros [= <-]. split; [done|]. right. by exists p.
      * intros (_ & [?|(p' & [= <-] & _ & Hg')]); [done|]. congruence.
    + split; [done|]. split; [|done]. intros e. split; [done|].
      intros (He & [?|(p' & [= <-] & Hn & Hg)]); [done|].
      assert (pod.makeLabels Get_Node p = inl e) as Hl'.
      { by apply makeLabels_error. }
      congruence.
Qed.

Lemma recordPodStartupMetric_metricStore c p :
  metricStore (recordPodStartupMetric c p) = metricStore c.
Proof.
  unfold recordPodStartupMetric. case_bool_decide; [done|].
  destruct (List.find _ _); [|done]. by case_bool_decide.
Qed.

(** X13: When the pod is found and its labels can be built, [Reconcile] stores
    one gauge of value 1 with those labels under the key of the pod,
    replacing what was stored for the pod, and leaves the entries of all
    other pods as they are. *)
Theorem Reconcile_found_updates_store (c : Controller) (req : NamespacedName)
        (p : Pod) (labels : gmap string string) :
  Get_Pod req = inr p ->
  makeLabels p = inr labels ->
  let r := Reconcile c req in
  r.2 = None
  ∧ metricStore r.1.1 !! keyOf p = Some [ {| Value := 1; Labels := labels |} ]
  ∧ ∀ k, k ≠ keyOf p -> metricStore r.1.1 !! k = metricStore c !! k.
Proof.
  intros Hget Hl. unfold pod.Reconcile. rewrite Hget, Hl. simpl.
  rewrite recordPodStartupMetric_metricStore. unfold Store_Update. simpl.
  split_and!; [done|apply lookup_insert_eq|].
  intros k Hk. by apply lookup_insert_ne.
Qed.

(** X14: A pod seen in phase Pending is tracked as pending, and nothing is
    observed for it. *)
Theorem Reconcile_pending_tracked (c : Controller) (req : NamespacedName)
        (p : Pod) (labels : gmap string string) :
  Get_Pod req = inr p ->
  makeLabels p = inr labels ->
  Phase p = phasePending ->
  let r := Reconcile c req in
  keyOf p ∈ pendingPods r.1.1
  ∧ podStartupTimeSummary r.1.1 = podStartupTimeSummary c.
Proof.
  intros Hget Hl Hphase. unfold pod.Reconcile. rewrite Hget, Hl. simpl.
  unfold recordPodStartupMetric. rewrite (bool_decide_eq_true_2 _ Hphase).
  simpl. split; [|done]. apply elem_of_union_l, elem_of_singleton. done.
Qed.

Lemma Time_Sub_exact (t u : Z) :
  minDuration <= t - u <= maxDuration -> Time_Sub t u = t - u.
Proof.
  intros [Hlo Hhi]. unfold Time_Sub.
  destruct (Z.ltb_spec (t - u) minDuration); [lia|].
  destruct (Z.ltb_spec maxDuration (t - u)); [lia|done].
Qed.

(** X15: The startup time of a pod is observed once: when a pod tracked as
    pending is seen out of phase Pending with a Ready condition, what
    [Sub] gives for the transition of its first Ready condition and its
    creation is observed (their difference, when it fits a duration) and
    the pod is no longer tracked; reconciling the same pod again observes
    nothing more. *)
Theorem Reconcile_startup_observed_once (c : Controller) (req : NamespacedName)
        (p : Pod) (labels : gmap string string) (cond : PodCondition) :
  Get_Pod req = inr p ->
  makeLabels p = inr labels ->
  Phase p ≠ phasePending ->
  List.find (fun cd => bool_decide (cond_Type cd = PodReady)) (Conditions p)
  = Some cond ->
  keyOf p ∈ pendingPods c ->
  let c1 := (Reconcile c req).1.1 in
  let c2 := (Reconcile c1 req).1.1 in
  podStartupTimeSummary c1
  = Time_Sub (LastTransitionTime cond) (CreationTimestamp p)
    :: podStartupTimeSummary c
  ∧ (minDuration <= LastTransitionTime cond - CreationTimestamp p
     <= maxDuration ->
     podStartupTimeSummary c1
     = (LastTransitionTime cond - CreationTimestamp p)
       :: podStartupTimeSummary c)
  ∧ (keyOf p ∉ pendingPods c1)
  ∧ podStartupTimeSummary c2 = podStartupTimeSummary c1
  ∧ pendingPods c2 = pendingPods c1.
Proof.
  intros Hget Hl Hphase Hfind Hin. unfold pod.Reconcile. rewrite Hget, Hl.
  cbn [fst snd]. unfold recordPodStartupMetric.
  rewrite !(bool_decide_eq_false_2 _ Hphase), Hfind. cbn [pendingPods].
  rewrite (bool_decide_eq_true_2 _ Hin).
  cbn [pendingPods podStartupTimeSummary].
  assert (keyOf p ∉ pendingPods c ∖ {[keyOf p]}) as Hnot.
  { rewrite elem_of_difference, elem_of_singleton. tauto. }
  rewrite (bool_decide_eq_false_2 _ Hnot).
  cbn [pendingPods podStartupTimeSummary].
  split_and!; try done. intros Hfit. by rewrite Time_Sub_exact.
Qed.

(** X16: A reconcile observes at most one startup time, and observes one only
    for a pod that was tracked as pending, is out of phase Pending and has
    a Ready condition; the time observed is what [Sub] gives for the
    transition of the first Ready condition and the creation. *)
Theorem Reconcile_observes_only_tracked (c : Controller) (req : NamespacedName) :
  let c' := (Reconcile c req).1.1 in
  podStartupTimeSummary c' = podStartupTimeSummary c
  ∨ ∃ p cond,
      Get_Pod req = inr p
      ∧ Phase p ≠ phasePending
      ∧ keyOf p ∈ pendingPods c
      ∧ List.find (fun cd => bool_decide (cond_Type cd = PodReady))
                  (Conditions p) = Some cond
      ∧ podStartupTimeSummary c'
        = Time_Sub (LastTransitionTime cond) (CreationTimestamp p)
          :: podStartupTimeSummary c.
Proof.
  unfold pod.Reconcile. destruct (Get_Pod req) as [err|p] eqn:Hget.
  - left. by destruct (IsNotFound err).
  - destruct (pod.makeLabels Get_Node p) as [err|labels]; [by left|].
    cbn [fst snd]. unfold recordPodStartupMetric.
    case_bool_decide as Hphase; [by left|].
    destruct (List.find _ _) as [cond|] eqn:Hfind; [|by left].
    cbn [pendingPods]. case_bool_decide as Hin; [|by left].
    right. by exists p, cond.
Qed.

(** X17: Reconciling a pod that is found and then, once it is gone, reconciling
    it again leaves no trace of the pod: its entry is out of the metric
    store and it is not tracked as pending, and the other entries are as
    they were. *)
Theorem Reconcile_found_then_gone (Get_gone : NamespacedName -> error + Pod)
        (c : Controller) (req : NamespacedName) (p : Pod)
        (labels : gmap string string) (err : error) :
  Get_Pod req = inr p ->
  makeLabels p = inr labels ->
  keyOf p = NamespacedName_String req ->
  Get_gone req = inl err -> IsNotFound err = true ->
  let c1 := (Reconcile c req).1.1 in
  let c2 := (pod.Reconcile Get_gone Get_Node c1 req).1.1 in
  metricStore c2 = delete (keyOf p) (metricStore c)
  ∧ (keyOf p ∉ pendingPods c2)
  ∧ ∀ k, k ≠ keyOf p -> (k ∈ pendingPods c2 <-> k ∈ pendingPods c).
Proof.
  intros Hget Hl Hkey Hgone Hnf. unfold pod.Reconcile.
  rewrite Hget, Hl, Hgone, Hnf. cbn [fst snd]. rewrite <- Hkey.
  cbn [metricStore pendingPods].
  rewrite recordPodStartupMetric_metricStore. cbn [metricStore].
  unfold Store_Delete, Store_Update. split_and!.
  - by rewrite delete_insert_eq.
  - rewrite elem_of_difference, elem_of_singleton. tauto.
  - intros k Hk. rewrite elem_of_difference, elem_of_singleton.
    unfold recordPodStartupMetric. case_bool_decide.
    + cbn [pendingPods]. rewrite elem_of_union, elem_of_singleton. tauto.
    + destruct (List.find _ _); [|tauto]. cbn [pendingPods].
      case_bool_decide; [|tauto]. cbn [pendingPods].
      rewrite elem_of_difference, elem_of_singleton. tauto.
Qed.
End PodControllerFurtherProperties.

Section PodControllerInvariant.
Import pod.

Lemma recordPodStartupMetric_pendingPods c p k :
  k ∈ pendingPods (recordPodStartupMetric c p) ->
  k = NamespacedName_String (ObjectKeyFromObject p) ∨ k ∈ pendingPods c.
Proof.
  unfold recordPodStartupMetric. case_bool_decide.
  - cbn [pendingPods]. rewrite elem_of_union, elem_of_singleton. tauto.
  - destruct (List.find _ _); [|tauto]. case_bool_decide; [|tauto].
    cbn [pendingPods]. rewrite elem_of_difference. tauto.
Qed.

Lemma Reconcile_keeps_pending_in_store Get_Pod Get_Node c req :
  pendingPods c ⊆ dom (metricStore c) ->
  pendingPods (Reconcile Get_Pod Get_Node c req).1.1
  ⊆ dom (metricStore (Reconcile Get_Pod Get_Node c req).1.1).
Proof.
  intros Hinv. unfold Reconcile. destruct (Get_Pod req) as [err|p].
  - cbn [fst]. destruct (IsNotFound err); [|done].
    cbn [pendingPods metricStore]. unfold Store_Delete.
    rewrite dom_delete_L. intros k.
    rewrite !elem_of_difference. intros [Hk Hne]. split; [by apply Hinv|done].
  - destruct (makeLabels Get_Node p) as [err|labels]; [done|].
    cbn [fst]. rewrite recordPodStartupMetric_metricStore.
    cbn [metricStore]. unfold Store_Update. rewrite dom_insert_L.
    intros k Hk. apply recordPodStartupMetric_pendingPods in Hk.
    cbn [pendingPods] in Hk. rewrite elem_of_union, elem_of_singleton.
    destruct Hk as [->|Hk]; [by left|]. right. by apply Hinv.
Qed.

(** X18: From [NewController] on, whatever the reconciles and whatever the
    client answers, every pod tracked as pending has an entry in the
    metric store. *)
Theorem pending_pods_have_metrics (steps : list Step) :
  pendingPods (run NewController steps)
  ⊆ dom (metricStore (run NewController steps)).
Proof.
  assert (H : ∀ c, pendingPods c ⊆ dom (metricStore c) ->
                   pendingPods (run c steps) ⊆ dom (metricStore (run c steps))).
  { induction steps as [|s rest IH]; intros c Hinv; simpl; [done|].
    apply IH. by apply Reconcile_keeps_pending_in_store. }
  apply H. simpl. intros k Hk. by apply not_elem_of_empty in Hk.
Qed.
End PodControllerInvariant.

Section PodControllerFurtherExamples.
Import pod.

Lemma makeLabels_label_names_witness :
  ∃ labels,
    makeLabels Examples.Get_node_a Examples.runningPod = inr labels
    ∧ dom labels = list_to_set labelNames.
Proof.
  destruct (makeLabels Examples.Get_node_a Examples.runningPod)
    as [e|labels] eqn:Hl.
  { vm_compute in Hl. discriminate. }
  exists labels. split; [reflexivity|].
  exact (makeLabels_label_names Examples.Get_node_a Examples.runningPod
                                labels Hl).
Defined.

Lemma Reconcile_found_updates_store_witness :
  ∃ labels,
    makeLabels Examples.Get_node_a Examples.runningPod = inr labels
    ∧ metricStore
        (Reconcile Examples.Get_running Examples.Get_node_a NewController
                   Examples.request).1.1 !! "default/web"
      = Some [ {| Value := 1; Labels := labels |} ].
Proof.
  destruct (makeLabels Examples.Get_node_a Examples.runningPod)
    as [e|labels] eqn:Hl.
  { vm_compute in Hl. discriminate. }
  exists labels. split; [reflexivity|].
  destruct (Reconcile_found_updates_store Examples.Get_running
              Examples.Get_node_a NewController Examples.request
              Examples.runningPod labels eq_refl Hl) as (_ & Hstore & _).
  exact Hstore.
Defined.

Lemma Reconcile_pending_tracked_witness :
  "default/web"
  ∈ pendingPods (Reconcile Examples.Get_pending Examples.Get_no_node
                           NewController Examples.request).1.1.
Proof.
  destruct (makeLabels Examples.Get_no_node Examples.pendingPod)
    as [e|labels] eqn:Hl.
  { vm_compute in Hl. discriminate. }
  destruct (Reconcile_pending_tracked Examples.Get_pending
              Examples.Get_no_node NewController Examples.request
              Examples.pendingPod labels eq_refl Hl eq_refl) as [Hin _].
  exact Hin.
Defined.

Lemma Reconcile_startup_observed_once_witness :
  podStartupTimeSummary
    (Reconcile Examples.Get_running Examples.Get_node_a Examples.controller
               Examples.request).1.1 = [30]
  ∧ podStartupTimeSummary
      (Reconcile Examples.Get_running Examples.Get_node_a
         (Reconcile Examples.Get_running Examples.Get_node_a
                    Examples.controller Examples.request).1.1
         Examples.request).1.1 = [30].
Proof.
  destruct (makeLabels Examples.Get_node_a Examples.runningPod)
    as [e|labels] eqn:Hl.
  { vm_compute in Hl. discriminate. }
  assert (Phase Examples.runningPod ≠ phasePending) as Hphase.
  { discriminate. }
  assert ("default/web" ∈ pendingPods Examples.controller) as Hin.
  { clear. vm_compute. reflexivity. }
  destruct (Reconcile_startup_observed_once Examples.Get_running
              Examples.Get_node_a Examples.controller Examples.request
              Examples.runningPod labels
              {| cond_Type := PodReady; LastTransitionTime := 130 |}
              eq_refl Hl Hphase eq_refl Hin) as (H1 & _ & _ & H2 & _).
  split; [exact H1|]. rewrite H2. exact H1.
Defined.

Lemma Reconcile_found_then_gone_witness :
  metricStore
    (Reconcile Examples.Get_gone Examples.Get_node_a
       (Reconcile Examples.Get_running Examples.Get_node_a NewController
                  Examples.request).1.1
       Examples.request).1.1
  = delete "default/web" (metricStore NewController).
Proof.
  destruct (makeLabels Examples.Get_node_a Examples.runningPod)
    as [e|labels] eqn:Hl.
  { vm_compute in Hl. discriminate. }
  destruct (Reconcile_found_then_gone Examples.Get_running
              Examples.Get_node_a Examples.Get_gone NewController
              Examples.request Examples.runningPod labels
              (NotFoundError "not found") eq_refl Hl eq_refl eq_refl eq_refl)
    as (Hstore & _).
  exact Hstore.
Defined.
End PodControllerFurtherExamples.

(** ** The disruption engine and queue (as modelled from the specification) *)
Section DisruptionFurtherProperties.
Import disruption.

Variable opts : test.options_Options.
Variable Scheduler :
  list Pod -> list StateNode -> list v1beta1.NodePool
  -> option (list NewNodeClaim).
Variable minSavings : Z.

(** X19: A drift command names drifted node-claims only: every node-claim that
    a command issued for drift names has the Drifted condition set, is
    Initialized, has a node and is not marked for deletion.  A node-claim
    without the condition is ignored by drift. *)
Theorem drift_commands_name_drifted (c : Cluster) (cmd : Command) (n : string) :
  cmd ∈ Reconcile opts Scheduler minSavings c [] ->
  cmd_reason cmd = Drift ->
  n ∈ cmd_candidates cmd ->
  ∃ nc, nodeClaims c !! n = Some nc
        ∧ is_Some (nc_Drifted nc)
        ∧ nc_Initialized nc = true
        ∧ is_Some (matchingNode c nc)
        ∧ n ∉ markedForDeletion c.
Proof.
  intros Hin Hreason Hn.
  apply Reconcile_issued in Hin as [Hin|(m & q' & Hc)].
  { by apply elem_of_nil in Hin. }
  apply computeCommand_sound in Hc as [Hm Hc]. rewrite Hreason in Hm.
  subst m. destruct (Hc n Hn) as [nc Hcand].
  apply getCandidates_elem in Hcand as (Hl & He & Hs). simpl in Hl, Hs.
  exists nc. split; [done|].
  apply andb_true_iff in Hs as [_ Hd]. apply bool_decide_eq_true_1 in Hd.
  unfold eligible in He. destruct (matchingNode c nc) as [nd|]; [|done].
  repeat (apply andb_true_iff in He as [He ?]).
  split_and!; [done|done|by eexists|].
  match goal with H : negb (bool_decide (n ∈ _)) = true |- _ =>
    apply negb_true_iff, bool_decide_eq_false_1 in H; exact H end.
Qed.

End DisruptionFurtherProperties.

Section DisruptionFurtherExamples.
Import disruption.

Lemma drift_commands_name_drifted_witness :
  Replace Drift ["claim-a"] [Examples.replacement]
  ∈ Reconcile Examples.driftEnabled Examples.oneNewNode 0
              Examples.driftedCluster []
  ∧ ∃ nc, nodeClaims Examples.driftedCluster !! "claim-a" = Some nc
          ∧ is_Some (nc_Drifted nc).
Proof.
  assert (Replace Drift ["claim-a"] [Examples.replacement]
          ∈ Reconcile Examples.driftEnabled Examples.oneNewNode 0
                      Examples.driftedCluster []) as Hin.
  { vm_compute. apply list_elem_of_here. }
  split; [exact Hin|].
  destruct (drift_commands_name_drifted Examples.driftEnabled
              Examples.oneNewNode 0 Examples.driftedCluster _ "claim-a"
              Hin eq_refl (list_elem_of_here _ _)) as (nc & Hl & Hd & _).
  by exists nc.
Defined.
End DisruptionFurtherExamples.
